(** * goauto: the watch / batch / dispatch pipeline and the go tasks

    A shallow embedding of [pipeline.go] (the [Pipeline] with [Watch],
    [WatchRecursive], [recDir], [batchRun], [queryWorkflow]) and of the go
    project and lint tasks ([goPrjTask.Run], [goLintTask.Run]).

    Conventions of the embedding.
    - A Go [error] is a value of [error]; [nil] is [None] of [option error].
    - An [io.Writer] is a sink handle of type [writer]; what a function
      writes is returned as the list of [io] operations it performed, in
      program order.
    - A method with a pointer receiver takes the pipeline and returns the
      pipeline it leaves behind.
    - The collaborators that live outside these files ([AbsPath],
      [IsHidden], [GoRelSrcDir], the file system, [exec.Command]) are
      section variables. *)

From stdpp Require Import base strings pretty list sorting gmap.
From Stdlib Require Import NArith Ascii.

Open Scope string_scope.
Open Scope list_scope.

(** ** Errors, sinks and output operations *)

(** Go [error] values.  [filepath.SkipDir] is a sentinel compared by
    identity, so it gets a constructor of its own. *)
Inductive error : Type :=
  | SkipDir
  | errors_New (msg : string).

#[global] Instance error_eq_dec : EqDecision error.
Proof. solve_decision. Defined.

(** Sink handles: [os.Stdout], [os.Stderr] and caller supplied writers. *)
Inductive writer : Type :=
  | os_Stdout
  | os_Stderr
  | Sink (id : nat).

#[global] Instance writer_eq_dec : EqDecision writer.
Proof. solve_decision. Defined.

(** Operations performed on sinks.  [Fprintln w args] is [fmt.Fprintln]
    with its operands already formatted (they are printed separated by
    spaces and followed by a newline); [Fprintf w s] is a formatted line;
    [BufWriteTo w bytes] is the single [w.Write] of [bytes.Buffer.WriteTo];
    [CmdStderr w bytes] is what a child process wrote to its standard
    error stream [w]. *)
Inductive io : Type :=
  | Fprintln (w : writer) (args : list string)
  | Fprintf (w : writer) (line : string)
  | BufWriteTo (w : writer) (bytes : string)
  | CmdStderr (w : writer) (bytes : string).

#[global] Instance io_eq_dec : EqDecision io.
Proof. solve_decision. Defined.

Definition error_text (e : error) : string :=
  match e with
  | SkipDir => "skip this directory"
  | errors_New msg => msg
  end.

(** ** path/filepath on a slash separated file system *)

Module filepath.

(** [strings.Split(s, "/")]. *)
Fixpoint split_sep (s : string) : list string :=
  match s with
  | EmptyString => [EmptyString]
  | String c s' =>
      if Ascii.eqb c "/"%char then EmptyString :: split_sep s'
      else match split_sep s' with
           | x :: xs => String c x :: xs
           | [] => [String c EmptyString]
           end
  end.

Definition rooted (s : string) : bool :=
  match s with
  | String c _ => Ascii.eqb c "/"%char
  | EmptyString => false
  end.

(** One element of [Clean]'s scan; [stack] holds the elements written so
    far, last one first.  Empty and [.] elements are dropped, [..]
    removes the previous element when there is one to remove, is dropped
    at the root, and is kept in front of a relative path. *)
Definition clean_step (is_rooted : bool) (stack : list string) (e : string)
  : list string :=
  if String.eqb e "" || String.eqb e "." then stack
  else if String.eqb e ".." then
    match stack with
    | top :: st =>
        if String.eqb top ".." then (if is_rooted then stack else e :: stack)
        else st
    | [] => if is_rooted then [] else [e]
    end
  else e :: stack.

(** The elements of [Clean(s)], first one first; [Clean(s)] is these
    joined by slashes, behind a slash when [s] is rooted, and [.] when
    a relative path has none. *)
Definition Clean_elems (s : string) : list string :=
  rev (fold_left (clean_step (rooted s)) (split_sep s) []).

Fixpoint join_elems (es : list string) : string :=
  match es with
  | [] => ""
  | [e] => e
  | e :: es' => e +:+ "/" +:+ join_elems es'
  end.

Definition Clean (s : string) : string :=
  match rooted s, Clean_elems s with
  | true, es => "/" +:+ join_elems es
  | false, [] => "."
  | false, es => join_elems es
  end.

(** [Join(path, name)]: the non-empty ones of the two elements, joined
    by a slash and cleaned; the empty string when both are empty. *)
Definition Join (path name : string) : string :=
  match path, name with
  | EmptyString, EmptyString => ""
  | EmptyString, _ => Clean name
  | _, EmptyString => Clean path
  | _, _ => Clean (path +:+ "/" +:+ name)
  end.

(** The last element of a path, as [os.Lstat(path).Name()] reports it. *)
Definition Base (s : string) : string :=
  match rev (filter (fun e => e <> "") (split_sep s)) with
  | e :: _ => e
  | [] => if rooted s then "/" else "."
  end.

(** The two paths without their longest common run of leading
    elements. *)
Fixpoint strip_common (base targ : list string) : list string * list string :=
  match base, targ with
  | b :: base', t :: targ' =>
      if String.eqb b t then strip_common base' targ' else (base, targ)
  | _, _ => (base, targ)
  end.

Definition Rel_error (basepath targpath : string) : error :=
  errors_New ("Rel: can't make " +:+ targpath +:+ " relative to " +:+ basepath).

(** The error result of [Rel(basepath, targpath)] (its string result is
    not used by the pipeline).  Both paths are cleaned; equal paths give
    [nil]; a rooted and a relative path cannot be related; otherwise the
    common leading elements are skipped and the call fails only when
    both paths go on and the base goes on with [..].  A target that
    cleans to [.] is compared as the element [.]. *)
Definition Rel (basepath targpath : string) : option error :=
  let base := Clean_elems basepath in
  let targ := Clean_elems targpath in
  if bool_decide (Clean targpath = Clean basepath) then None
  else if negb (Bool.eqb (rooted basepath) (rooted targpath))
  then Some (Rel_error basepath targpath)
  else
    let targ' := if bool_decide (Clean targpath = ".") then ["."] else targ in
    match strip_common base targ' with
    | (b :: _, _ :: _) =>
        if String.eqb b ".." then Some (Rel_error basepath targpath) else None
    | _ => None
    end.

End filepath.

(** ** The file system seen by [os.Stat] and [filepath.Walk] *)

Module os.

(** What [Lstat] finds at a path: a plain file, or a directory with the
    names [readDirNames] lists in it (when [readable]), each with the
    node [Lstat] finds for it, [None] when that [Lstat] fails. *)
#[local] Set Warnings "-register-all".
Inductive node : Type :=
  | File
  | Dir (readable : bool) (entries : list (string * option node)).

Record FileInfo : Type := { Name : string; IsDir : bool }.

Definition is_dir (n : node) : bool :=
  match n with
  | Dir _ _ => true
  | File => false
  end.

End os.

(** ** fsnotify events *)

Module fsnotify.

Definition Create : N := 1.
Definition Write : N := 2.
Definition Remove : N := 4.
Definition Rename : N := 8.
Definition Chmod : N := 16.

Record Event : Type := { Name : string; Op : N }.

End fsnotify.

Definition dirOps : N := N.lor fsnotify.Create fsnotify.Rename.

Definition IgnoreHidden : bool := true.
Definition IncludeHidden : bool := false.

(** ** Workflows and task contexts *)

(** [TaskInfo]: the per dispatch record handed to a workflow.  [Buf] is
    the unread content of the scratch [bytes.Buffer]. *)
Record TaskInfo : Type := {
  Src : string;
  Target : string;
  Buf : string;
  Tout : writer;
  Terr : writer;
  ti_Verbose : bool
}.

(** The [Workflower] interface over a world [W] that [Run] may change.
    [Run] receives a pointer to the [TaskInfo]; it returns the record as
    it left it, its error and the world. *)
Record Workflower (W : Type) : Type := {
  Match : string -> N -> bool;
  Run : TaskInfo -> W -> TaskInfo * option error * W
}.
Arguments Match {W} _ _ _.
Arguments Run {W} _ _ _.

(** ** The pipeline *)

(** [watcher] is [None] for the nil pointer and otherwise the paths
    handed to [fsnotify.Watcher.Add], in call order.  A nil [recDirs] map
    and an empty one read alike and are both the empty map. *)
Record Pipeline (W : Type) : Type := {
  Name : string;
  Watches : list string;
  Wout : writer;
  Werr : writer;
  Workflows : list (Workflower W);
  Verbose : bool;
  watcher : option (list string);
  recDirs : gmap string bool
}.
Arguments Name {W} _.
Arguments Watches {W} _.
Arguments Wout {W} _.
Arguments Werr {W} _.
Arguments Workflows {W} _.
Arguments Verbose {W} _.
Arguments watcher {W} _.
Arguments recDirs {W} _.

Definition NewPipeline {W} (name : string) (verbose : bool) : Pipeline W :=
  {| Name := name; Watches := []; Wout := os_Stdout; Werr := os_Stderr;
     Workflows := []; Verbose := verbose; watcher := None; recDirs := ∅ |}.

Definition set_Watches {W} (ws : list string) (p : Pipeline W) : Pipeline W :=
  {| Name := Name p; Watches := ws; Wout := Wout p; Werr := Werr p;
     Workflows := Workflows p; Verbose := Verbose p; watcher := watcher p;
     recDirs := recDirs p |}.

Definition set_watcher {W} (w : option (list string)) (p : Pipeline W) : Pipeline W :=
  {| Name := Name p; Watches := Watches p; Wout := Wout p; Werr := Werr p;
     Workflows := Workflows p; Verbose := Verbose p; watcher := w;
     recDirs := recDirs p |}.

Definition set_recDirs {W} (m : gmap string bool) (p : Pipeline W) : Pipeline W :=
  {| Name := Name p; Watches := Watches p; Wout := Wout p; Werr := Werr p;
     Workflows := Workflows p; Verbose := Verbose p; watcher := watcher p;
     recDirs := m |}.

Definition set_Workflows {W} (ws : list (Workflower W)) (p : Pipeline W) : Pipeline W :=
  {| Name := Name p; Watches := Watches p; Wout := Wout p; Werr := Werr p;
     Workflows := ws; Verbose := Verbose p; watcher := watcher p;
     recDirs := recDirs p |}.

(** [Add]: appends the workflows one by one. *)
Definition Add {W} (p : Pipeline W) (ws : list (Workflower W)) : Pipeline W :=
  fold_left (fun q w => set_Workflows (Workflows q ++ [w]) q) ws p.

(** The [for _, w := range p.Watches { if w == d ... }] scan. *)
Fixpoint already_watching (ws : list string) (d : string) : bool :=
  match ws with
  | [] => false
  | w :: ws' => if String.eqb w d then true else already_watching ws' d
  end.

(** [watcher.Add(d)] on the live watcher. *)
Definition watcher_Add (w : list string) (d : string) : list string := w ++ [d].

(** [Watch]: the resolved path and error it returns, the pipeline it
    leaves, and what it printed.  [AbsPath] is the resolver in force at
    the call. *)
Definition Watch {W} (AbsPath : string -> string * option error)
    (p : Pipeline W) (watchDir : string)
  : (string * option error) * Pipeline W * list io :=
  match AbsPath watchDir with
  | (_, Some err) =>
      (("", Some err), p,
       if Verbose p then [Fprintln (Wout p) [error_text err]] else [])
  | (d, None) =>
      if already_watching (Watches p) d then ((d, None), p, [])
      else
        let p1 := set_Watches (Watches p ++ [d]) p in
        let p2 := match watcher p1 with
                  | Some w => set_watcher (Some (watcher_Add w d)) p1
                  | None => p1
                  end in
        ((d, None), p2, [])
  end.

(** ** filepath.Walk *)

Definition lstat_error : error := errors_New "lstat failed".
Definition readdir_error : error := errors_New "readdirnames failed".

(** A [WalkFunc] over a state [S]: path, file info ([None] for nil),
    incoming error; it returns the state and its own error. *)
Definition WalkFunc (S : Type) : Type :=
  string -> option os.FileInfo -> option error -> S -> S * option error.

(** [walk], as the current [path/filepath] has it: a file is handed to
    [walkFn]; a directory is handed to [walkFn] together with the error
    of reading its names, and when neither that read nor [walkFn] failed
    its entries are walked in order.  An entry whose [Lstat] fails is
    handed to [walkFn] with that error; [SkipDir] from a directory entry
    skips it, any other error ends the walk. *)
Fixpoint walk {S : Type} (path name : string) (n : os.node)
    (walkFn : WalkFunc S) (s : S) {struct n} : S * option error :=
  match n with
  | os.File => walkFn path (Some {| os.Name := name; os.IsDir := false |}) None s
  | os.Dir readable entries =>
      let err := if readable then None else Some readdir_error in
      let '(s1, err1) :=
        walkFn path (Some {| os.Name := name; os.IsDir := true |}) err s in
      if negb readable || bool_decide (err1 <> None) then (s1, err1)
      else
        (fix range (names : list (string * option os.node)) (s : S)
           : S * option error :=
           match names with
           | [] => (s, None)
           | (nm, child) :: rest =>
               let filename := filepath.Join path nm in
               match child with
               | None =>
                   let '(s', e) := walkFn filename None (Some lstat_error) s in
                   if bool_decide (e <> None) && negb (bool_decide (e = Some SkipDir))
                   then (s', e) else range rest s'
               | Some c =>
                   let '(s', e) := walk filename nm c walkFn s in
                   if bool_decide (e <> None)
                   then if negb (os.is_dir c) || negb (bool_decide (e = Some SkipDir))
                        then (s', e) else range rest s'
                   else range rest s'
               end
           end) entries s1
  end.

(** [Walk]: [Lstat] of the root, then [walk]; a [SkipDir] that reaches
    the top is not an error.  [fs path] is the tree [Lstat] finds at
    [path], [None] when it fails. *)
Definition Walk {S : Type} (fs : string -> option os.node) (root : string)
    (fn : WalkFunc S) (s : S) : S * option error :=
  let '(s', err) :=
    match fs root with
    | None => fn root None (Some lstat_error) s
    | Some n => walk root (filepath.Base root) n fn s
    end in
  (s', if bool_decide (err = Some SkipDir) then None else err).

(** ** Recursive watches and the rescan *)

Section WatchSet.

Context {W : Type}.
Variable AbsPath : string -> string * option error.
Variable IsHidden : string -> bool.
Variable fs : string -> option os.node.

(** The closure [WatchRecursive] hands to [Walk]; its state is the
    pipeline and what has been printed. *)
Definition WatchRecursive_walkFn (ignoreHidden : bool)
  : WalkFunc (Pipeline W * list io) :=
  fun path info err '(p, out) =>
    match err with
    | Some _ => ((p, out), None)
    | None =>
        match info with
        | Some fi =>
            if os.IsDir fi then
              if IsHidden (os.Name fi) && ignoreHidden
              then ((p, out), Some SkipDir)
              else
                let '(_, p', o) := Watch AbsPath p path in
                ((p', out ++ o), None)
            else ((p, out), None)
        | None => ((p, out), None)
        end
    end.

(** [WatchRecursive]: its error, the pipeline it leaves and what was
    printed on the way. *)
Definition WatchRecursive (p : Pipeline W) (watchDir : string)
    (ignoreHidden : bool) : option error * Pipeline W * list io :=
  match AbsPath watchDir with
  | (_, Some err) => (Some err, p, [])
  | (d, None) =>
      let p1 := set_recDirs (<[d := ignoreHidden]> (recDirs p)) p in
      let '((p2, out), _) :=
        Walk fs d (WatchRecursive_walkFn ignoreHidden) (p1, []) in
      (None, p2, out)
  end.

(** [os.Stat(name)] succeeded and reports a directory. *)
Definition stat_is_dir (name : string) : bool :=
  match fs name with
  | Some n => os.is_dir n
  | None => false
  end.

(** The [range p.recDirs] loop of [recDir] over the entries in the
    order the runtime yields them.  Besides the pipeline and the output
    it returns the [WatchRecursive] calls it made. *)
Fixpoint recDir_range (p : Pipeline W) (e : fsnotify.Event) (h : bool)
    (order : list (string * bool))
  : Pipeline W * list io * list (string * bool) :=
  match order with
  | [] => (p, [], [])
  | (dir, iHidden) :: rest =>
      if h && iHidden then recDir_range p e h rest
      else
        match filepath.Rel dir (fsnotify.Name e) with
        | None =>
            let '(_, p', out) := WatchRecursive p (fsnotify.Name e) iHidden in
            (p', out, [(fsnotify.Name e, iHidden)])
        | Some _ => recDir_range p e h rest
        end
  end.

(** [recDir].  Go leaves the iteration order of a map open: [order] is
    the order of this run, a permutation of the entries of [recDirs]. *)
Definition recDir (order : list (string * bool)) (p : Pipeline W)
    (e : fsnotify.Event) : Pipeline W * list io * list (string * bool) :=
  if negb (N.eqb (N.land dirOps (fsnotify.Op e)) (fsnotify.Op e)) then (p, [], [])
  else if negb (stat_is_dir (fsnotify.Name e)) then (p, [], [])
  else recDir_range p e (IsHidden (fsnotify.Name e)) order.

End WatchSet.

(** ** The batcher *)

(** The case a [select] of [batchRun] took: a raw event from
    [p.watcher.Events], the ticker, or the stop signal on [p.done].
    [p.done] is unbuffered, so the send [p.done <- true] of [Stop]
    completes exactly when the batcher takes [case_done]. *)
Inductive selected : Type :=
  | case_event (event : fsnotify.Event)
  | case_tick
  | case_done.

(** Where [batchRun] stands after the cases it was given: still in its
    loop holding [evs], or out of it with [p.done] closed. *)
Inductive batcher : Type :=
  | in_loop (evs : list fsnotify.Event)
  | returned.

(** One pass through the [select]: the batch sent on [p.events], if any,
    and the state after it. *)
Definition select_step (evs : list fsnotify.Event) (c : selected)
  : option (list fsnotify.Event) * batcher :=
  match c with
  | case_event event => (None, in_loop (evs ++ [event]))
  | case_tick =>
      if Nat.eqb (length evs) 0 then (None, in_loop evs)
      else (Some evs, in_loop [])
  | case_done => (None, returned)
  end.

(** The [for { select { ... } }] loop from accumulator [evs] over the
    cases taken, in order: the batches sent, in sending order, and the
    final state.  Nothing is read once the loop is left. *)
Fixpoint batchRun_loop (evs : list fsnotify.Event) (cases : list selected)
  : list (list fsnotify.Event) * batcher :=
  match cases with
  | [] => ([], in_loop evs)
  | c :: rest =>
      match select_step evs c with
      | (sent, in_loop evs') =>
          let '(batches, final) := batchRun_loop evs' rest in
          (match sent with Some b => b :: batches | None => batches end, final)
      | (_, returned) => ([], returned)
      end
  end.

(** [batchRun] starts with [var evs []fsnotify.Event]. *)
Definition batchRun (cases : list selected)
  : list (list fsnotify.Event) * batcher :=
  batchRun_loop [] cases.

(** The raw events among the cases, in arrival order. *)
Definition arrivals (cases : list selected) : list fsnotify.Event :=
  flat_map (fun c => match c with case_event e => [e] | _ => [] end) cases.

(** ** Dispatch *)

Definition newline : string := String (ascii_of_nat 10) EmptyString.

Section Dispatch.

Context {W : Type}.
(** How an output operation of the pipeline itself changes the world. *)
Variable emit : io -> W -> W.

(** The [TaskInfo] literal of [queryWorkflow]. *)
Definition new_TaskInfo (p : Pipeline W) (fpath : string) : TaskInfo :=
  {| Src := fpath; Target := ""; Buf := ""; Tout := Wout p;
     Terr := Werr p; ti_Verbose := Verbose p |}.

(** The [range p.Workflows] loop of [queryWorkflow]. *)
Fixpoint queryWorkflow_range (p : Pipeline W) (fpath : string) (op : N)
    (wfs : list (Workflower W)) (w : W) : W :=
  match wfs with
  | [] => w
  | wf :: rest =>
      if Match wf fpath op
      then
        let '(_, _, w') := Run wf (new_TaskInfo p fpath) w in
        queryWorkflow_range p fpath op rest w'
      else queryWorkflow_range p fpath op rest w
  end.

Definition queryWorkflow (p : Pipeline W) (fpath : string) (op : N) (w : W) : W :=
  let w1 :=
    if Verbose p
    then emit (Fprintf (Wout p)
                 ("Watcher event " +:+ fpath +:+ " " +:+ pretty op +:+ newline)) w
    else w in
  queryWorkflow_range p fpath op (Workflows p) w1.

(** The body of the dispatch loop of [Start] for one received batch:
    [queryWorkflow] for every event in order.  The rescans started with
    [go p.recDir(e)] run beside it and write none of the fields
    [queryWorkflow] reads (see [recDir_frame]). *)
Definition dispatch (p : Pipeline W) (evs : list fsnotify.Event) (w : W) : W :=
  fold_left (fun w e => queryWorkflow p (fsnotify.Name e) (fsnotify.Op e) w) evs w.

End Dispatch.

(** A workflow that also records each [Run] it receives, with its
    position [i] in the registration order, in a log kept beside the
    world. *)
Definition recording {W : Type} (i : nat) (wf : Workflower W)
  : Workflower (W * list (nat * TaskInfo)) :=
  {| Match := Match wf;
     Run := fun info '(w, log) =>
              let '(info', err, w') := Run wf info w in
              (info', err, (w', log ++ [(i, info)])) |}.

(** The workflows [wfs], registered from position [from] on, each
    replaced by its recording twin. *)
Fixpoint recording_all {W : Type} (from : nat) (wfs : list (Workflower W))
  : list (Workflower (W * list (nat * TaskInfo))) :=
  match wfs with
  | [] => []
  | wf :: rest => recording from wf :: recording_all (S from) rest
  end.

(** The pipeline with every workflow replaced by its recording twin. *)
Definition recorded {W : Type} (p : Pipeline W)
  : Pipeline (W * list (nat * TaskInfo)) :=
  {| Name := Name p; Watches := Watches p; Wout := Wout p; Werr := Werr p;
     Workflows := recording_all 0 (Workflows p); Verbose := Verbose p;
     watcher := watcher p; recDirs := recDirs p |}.

(** The pipeline's own output leaves the log alone. *)
Definition emit_recorded {W : Type} (emit : io -> W -> W)
  : io -> W * list (nat * TaskInfo) -> W * list (nat * TaskInfo) :=
  fun o '(w, log) => (emit o w, log).

(** The positions, counted from [from], of the workflows whose [Match]
    accepts the path and operation, in registration order. *)
Fixpoint matching {W : Type} (from : nat) (wfs : list (Workflower W))
    (fpath : string) (op : N) : list nat :=
  match wfs with
  | [] => []
  | wf :: rest =>
      (if Match wf fpath op then [from] else []) ++ matching (S from) rest fpath op
  end.

(** The [Run] calls the spec asks of the dispatch of one event: one per
    matching workflow, in registration order, each with a fresh
    [TaskInfo] for the event's path. *)
Definition expected_runs {W : Type} (p : Pipeline W) (e : fsnotify.Event)
  : list (nat * TaskInfo) :=
  map (fun i => (i, new_TaskInfo p (fsnotify.Name e)))
      (matching 0 (Workflows p) (fsnotify.Name e) (fsnotify.Op e)).

(** ** The go tasks *)

Record Cmd_result : Type := {
  cmd_Stdout : string;
  cmd_Stderr : string;
  cmd_err : option error
}.

Record goPrjTask : Type := { gocmd : string; args : list string }.
Record goLintTask : Type := { lint_args : list string }.

Definition NewGoPrjTask (gocmd : string) (args : list string) : goPrjTask :=
  {| gocmd := gocmd; args := args |}.
Definition NewGoTestTask (args : list string) : goPrjTask :=
  {| gocmd := "test"; args := args |}.
Definition NewGoVetTask (args : list string) : goPrjTask :=
  {| gocmd := "vet"; args := args |}.
Definition NewGoBuildTask (args : list string) : goPrjTask :=
  {| gocmd := "build"; args := args |}.
Definition NewGoInstallTask (args : list string) : goPrjTask :=
  {| gocmd := "install"; args := args |}.
Definition NewGoLintTask (args : list string) : goLintTask :=
  {| lint_args := args |}.

Definition set_Target (t : string) (info : TaskInfo) : TaskInfo :=
  {| Src := Src info; Target := t; Buf := Buf info; Tout := Tout info;
     Terr := Terr info; ti_Verbose := ti_Verbose info |}.

Definition set_Buf (b : string) (info : TaskInfo) : TaskInfo :=
  {| Src := Src info; Target := Target info; Buf := b; Tout := Tout info;
     Terr := Terr info; ti_Verbose := ti_Verbose info |}.

(** [info.Buf.WriteTo(w)]: one [Write] of the unread bytes when there are
    any, then the buffer is reset. *)
Definition Buf_WriteTo (info : TaskInfo) (w : writer) : TaskInfo * list io :=
  (set_Buf "" info,
   if Nat.eqb (String.length (Buf info)) 0 then [] else [BufWriteTo w (Buf info)]).

(** A [[]string] operand as [fmt] prints it. *)
Definition fmt_strings (l : list string) : string :=
  "[" +:+ String.concat " " l +:+ "]".

Section Tasks.

Variable GoRelSrcDir : string -> string.
Variable strings_Title : string -> string.
(** [exec.Command(name, args...).Run()] for this invocation: what the
    child wrote to its standard output and error, and the error of
    [Run]. *)
Variable exec_Run : string -> list string -> Cmd_result.

(** The command runs with [Stdout = &info.Buf] and [Stderr = info.Terr]. *)
Definition run_into (info : TaskInfo) (name : string) (targs : list string)
  : TaskInfo * option error * list io :=
  let r := exec_Run name targs in
  (set_Buf (Buf info +:+ cmd_Stdout r) info, cmd_err r,
   if Nat.eqb (String.length (cmd_Stderr r)) 0 then []
   else [CmdStderr (Terr info) (cmd_Stderr r)]).

(** [goPrjTask.Run]: the [TaskInfo] it leaves behind the pointer, the
    error it returns, and its output operations in order.  The deferred
    [info.Buf.WriteTo(info.Tout)] runs last on both ways out. *)
Definition goPrjTask_Run (gt : goPrjTask) (info : TaskInfo)
  : TaskInfo * option error * list io :=
  let info1 := set_Buf "" (set_Target (Src info) info) in
  let dir := GoRelSrcDir (Src info1) in
  let out1 := [Fprintln (Tout info1) ["Go"; strings_Title (gocmd gt); "..."; dir]] in
  let targs := ([gocmd gt] ++ args gt) ++ [dir] in
  let '(info2, err, out2) := run_into info1 "go" targs in
  match err with
  | Some e =>
      let '(info3, out3) := Buf_WriteTo info2 (Tout info2) in
      (info3, Some e, out1 ++ out2 ++ out3)
  | None =>
      let out_ok := [Fprintln (Tout info2) ["ok"]] in
      let '(info3, out3) := Buf_WriteTo info2 (Tout info2) in
      (info3, None, out1 ++ out2 ++ out_ok ++ out3)
  end.

(** [goLintTask.Run]. *)
Definition goLintTask_Run (lt : goLintTask) (info : TaskInfo)
  : TaskInfo * option error * list io :=
  let info1 := set_Buf "" (set_Target (Src info) info) in
  let dir := GoRelSrcDir (Src info1) in
  let out1 :=
    [Fprintln (Tout info1) ["Go Lint"; fmt_strings (lint_args lt); "..."; dir]] in
  let targs := lint_args lt ++ [dir] in
  let '(info2, err, out2) := run_into info1 "golint" targs in
  match err with
  | Some e =>
      let '(info3, out3) := Buf_WriteTo info2 (Tout info2) in
      (info3, Some e, out1 ++ out2 ++ out3)
  | None =>
      if Nat.ltb 0 (String.length (Buf info2)) then
        let '(info3, out3) := Buf_WriteTo info2 (Tout info2) in
        (info3, Some (errors_New "FAIL"), out1 ++ out2 ++ out3)
      else
        let out_ok := [Fprintln (Tout info2) ["ok"]] in
        let '(info3, out3) := Buf_WriteTo info2 (Tout info2) in
        (info3, None, out1 ++ out2 ++ out_ok ++ out3)
  end.

End Tasks.

(** ** Example collaborators

    Concrete instances of the collaborators, used to run the pipeline on
    concrete inputs. *)

(** The node found below [n] along the elements [es]. *)
Fixpoint lookup_node (n : os.node) (es : list string) : option os.node :=
  match es with
  | [] => Some n
  | e :: es' =>
      match n with
      | os.Dir _ entries =>
          (fix find (l : list (string * option os.node)) : option os.node :=
             match l with
             | [] => None
             | (nm, child) :: l' =>
                 if String.eqb nm e
                 then match child with
                      | Some c => lookup_node c es'
                      | None => None
                      end
                 else find l'
             end) entries
      | os.File => None
      end
  end.

(** The file system whose root directory is [root]. *)
Definition fs_of (root : os.node) (path : string) : option os.node :=
  if filepath.rooted path then lookup_node root (filepath.Clean_elems path)
  else None.

Definition dir (entries : list (string * option os.node)) : os.node :=
  os.Dir true entries.

(** [/a/sub/new], [/b/new/deep], [/r] with [.git/objects], [.cfg/sub],
    [src/pkg] and two files, and [/go/src/proj]. *)
Definition example_root : os.node :=
  dir [ ("a", Some (dir [("sub", Some (dir [("new", Some (dir []))]))]));
        ("b", Some (dir [("new", Some (dir [("deep", Some (dir []))]))]));
        ("r", Some (dir [ (".cfg", Some (dir [("sub", Some (dir []))]));
                          (".git", Some (dir [("objects", Some (dir []))]));
                          ("README", Some os.File);
                          ("src", Some (dir [ ("main.go", Some os.File);
                                              ("pkg", Some (dir [])) ])) ]));
        ("go", Some (dir [("src", Some (dir [("proj", Some (dir []))]))])) ].

Definition example_fs : string -> option os.node := fs_of example_root.

(** A resolver: a rooted path is cleaned, any other path is taken below
    [/go/src]; the result must be a directory of [fs]. *)
Definition example_AbsPath (fs : string -> option os.node) (path : string)
  : string * option error :=
  let d := if filepath.rooted path then filepath.Clean path
           else filepath.Join "/go/src" path in
  if stat_is_dir fs d then (d, None)
  else ("", Some (errors_New ("stat " +:+ d +:+ ": no such directory"))).

(** A hidden detector: the name starts with a dot. *)
Definition dot_hidden (name : string) : bool :=
  match name with
  | String c _ => Ascii.eqb c "."%char
  | EmptyString => false
  end.

Definition example_pipeline : Pipeline unit := NewPipeline "example" false.

(** ** Path containment, in the spec's words

    [lies_under root path]: both are rooted and the elements of the
    cleaned [root] are the leading elements of the cleaned [path]. *)
Definition lies_under (root path : string) : bool :=
  filepath.rooted root && filepath.rooted path
  && bool_decide (filepath.Clean_elems root `prefix_of` filepath.Clean_elems path).

(** ** Directories of a tree and the survivors of a walk *)

(** [subdir path name n q chain]: [q] is the path of a directory of the
    tree [n] found at [path] under the name [name]; [chain] lists the
    directories from [n] down to [q], each with its name and whether its
    names can be read. *)
Inductive subdir : string -> string -> os.node -> string -> list (string * bool) -> Prop :=
  | subdir_here path name readable entries :
      subdir path name (os.Dir readable entries) path [(name, readable)]
  | subdir_below path name readable entries nm c q chain :
      (nm, Some c) ∈ entries ->
      subdir (filepath.Join path nm) nm c q chain ->
      subdir path name (os.Dir readable entries) q ((name, readable) :: chain).

(** The directories [WatchRecursive]'s closure hands to [Watch], in walk
    order: a directory is left out with everything below it when it is
    hidden and hidden directories are ignored, or when its names cannot
    be read. *)
Fixpoint survivors (IsHidden : string -> bool) (ignoreHidden : bool)
    (path name : string) (n : os.node) {struct n} : list string :=
  match n with
  | os.File => []
  | os.Dir readable entries =>
      if negb readable || (IsHidden name && ignoreHidden) then []
      else
        path ::
        (fix below (l : list (string * option os.node)) : list string :=
           match l with
           | [] => []
           | (nm, Some c) :: l' =>
               survivors IsHidden ignoreHidden (filepath.Join path nm) nm c ++ below l'
           | (_, None) :: l' => below l'
           end) entries
  end.

(** [Watch] on each path in turn, gathering the output. *)
Definition Watch_all {W} (AbsPath : string -> string * option error)
    (s : Pipeline W * list io) (paths : list string) : Pipeline W * list io :=
  fold_left (fun '(p, out) path =>
               let '(_, p', o) := Watch AbsPath p path in (p', out ++ o))
            paths s.

(** The number of entries of a watch list that are the directory [d]. *)
Definition entries_for (d : string) (ws : list string) : nat :=
  length (filter (fun w => w = d) ws).

(** The error the walk of a node under [WatchRecursive]'s closure ends
    with: [SkipDir] for a readable hidden directory that is ignored,
    [nil] otherwise. *)
Definition walk_error (IsHidden : string -> bool) (ignoreHidden : bool)
    (name : string) (n : os.node) : option error :=
  match n with
  | os.Dir true _ => if IsHidden name && ignoreHidden then Some SkipDir else None
  | _ => None
  end.

(** A directory of a chain that the walk enters: its names can be read
    and it is not a hidden directory under the ignore policy. *)
Definition visible (IsHidden : string -> bool) (ignoreHidden : bool)
    (x : string * bool) : Prop :=
  x.2 = true /\ (IsHidden x.1 && ignoreHidden) = false.

(** The entry the loop of [recDir] stops at: the first one that is not
    excluded on hidden grounds and to which [Rel] relates the event's
    path. *)
Definition recDir_match (h : bool) (name : string) (entry : string * bool) : bool :=
  negb (h && entry.2) && bool_decide (filepath.Rel entry.1 name = None).

(** The cases of one coalescing window: its raw events, then the tick
    that closes it. *)
Definition window_cases (events : list fsnotify.Event) : list selected :=
  map case_event events ++ [case_tick].

(** Two example workflows over a world that lists what ran: [build_wf]
    matches only [/r/a.go] and its [Run] returns an error, [test_wf]
    matches every path. *)
Definition build_wf : Workflower (list string) :=
  {| Match := fun fpath _ => String.eqb fpath "/r/a.go";
     Run := fun info w => (info, Some (errors_New "build failed"),
                           w ++ ["build " +:+ Src info]) |}.

Definition test_wf : Workflower (list string) :=
  {| Match := fun _ _ => true;
     Run := fun info w => (set_Target (Src info) info, None,
                           w ++ ["test " +:+ Src info]) |}.

(** The pipelines the exported functions build from [NewPipeline] under
    given collaborators; [started] is [Start] creating the watcher and
    subscribing it to every watch target. *)
Inductive reachable {W : Type} (AbsPath : string -> string * option error)
    (IsHidden : string -> bool) (fs : string -> option os.node)
  : Pipeline W -> Prop :=
  | reach_new name verbose : reachable AbsPath IsHidden fs (NewPipeline name verbose)
  | reach_Watch p watchDir :
      reachable AbsPath IsHidden fs p ->
      reachable AbsPath IsHidden fs (Watch AbsPath p watchDir).1.2
  | reach_WatchRecursive p watchDir ignoreHidden :
      reachable AbsPath IsHidden fs p ->
      reachable AbsPath IsHidden fs
        (WatchRecursive AbsPath IsHidden fs p watchDir ignoreHidden).1.2
  | reach_recDir order p e :
      reachable AbsPath IsHidden fs p ->
      reachable AbsPath IsHidden fs (recDir AbsPath IsHidden fs order p e).1.1
  | reach_Add p ws :
      reachable AbsPath IsHidden fs p ->
      reachable AbsPath IsHidden fs (Add p ws)
  | reach_started p :
      reachable AbsPath IsHidden fs p ->
      reachable AbsPath IsHidden fs (set_watcher (Some (Watches p)) p).

(** ** Start

    [Start] up to its dispatch loop, and the loop itself.  The two
    checks for nil sinks have nothing to do here, where a sink is always
    a handle. *)

Definition set_Name {W} (n : string) (p : Pipeline W) : Pipeline W :=
  {| Name := n; Watches := Watches p; Wout := Wout p; Werr := Werr p;
     Workflows := Workflows p; Verbose := Verbose p; watcher := watcher p;
     recDirs := recDirs p |}.

(** The [for _, w := range p.Watches] loop of [Start]: every watch
    target is added to the new watcher [w], and a verbose pipeline
    prints a line for each. *)
Fixpoint Start_subscribe (verbose : bool) (wout : writer) (targets : list string)
    (w : list string) : list string * list io :=
  match targets with
  | [] => (w, [])
  | d :: rest =>
      let w1 := watcher_Add w d in
      let line := if verbose
                  then [Fprintf wout ("Watching " +:+ d +:+ newline)]
                  else [] in
      let '(w2, out) := Start_subscribe verbose wout rest w1 in
      (w2, line ++ out)
  end.

(** [Start] before its dispatch loop.  [NewWatcher] is the error of
    [fsnotify.NewWatcher()], [None] when it hands out a watcher (which
    then has no subscription).  The result is the pipeline, the output,
    and whether the dispatch loop is entered. *)
Definition Start_setup {W} (NewWatcher : option error) (p : Pipeline W)
  : Pipeline W * list io * bool :=
  let p1 := if String.eqb (Name p) "" then set_Name "<UNNAMED>" p else p in
  let warn1 :=
    if Nat.ltb (length (Watches p1)) 1
    then [Fprintln (Werr p1) ["Pipeline"; Name p1; "is not watching anything"]]
    else [] in
  let warn2 :=
    if Nat.ltb (length (Workflows p1)) 1
    then [Fprintln (Werr p1) ["Pipeline"; Name p1; "has no Workflows"]]
    else [] in
  match NewWatcher with
  | Some err =>
      (p1, warn1 ++ warn2 ++ [Fprintln (Werr p1) [error_text err]], false)
  | None =>
      let '(w, out) := Start_subscribe (Verbose p1) (Wout p1) (Watches p1) [] in
      (set_watcher (Some w) p1, warn1 ++ warn2 ++ out, true)
  end.

(** The dispatch loop of [Start] over the batches it receives on
    [p.events], in order. *)
Definition Start_loop {W} (emit : io -> W -> W) (p : Pipeline W)
    (received : list (list fsnotify.Event)) (w : W) : W :=
  fold_left (fun w evs => dispatch emit p evs w) received w.

(** ** Sequences of calls

    What a call sees of the outside: the resolver and the file system in
    force when it is made. *)
Record env : Type := {
  env_AbsPath : string -> string * option error;
  env_fs : string -> option os.node
}.

(** The calls that change a pipeline, taken one at a time.  A
    [call_recDir] carries the order in which that run of [recDir] ranges
    over the map. *)
Inductive call (W : Type) : Type :=
  | call_Watch (v : env) (watchDir : string)
  | call_WatchRecursive (v : env) (watchDir : string) (ignoreHidden : bool)
  | call_recDir (v : env) (order : list (string * bool)) (e : fsnotify.Event)
  | call_Add (ws : list (Workflower W))
  | call_Start (NewWatcher : option error).
Arguments call_Watch {W} _ _.
Arguments call_WatchRecursive {W} _ _ _.
Arguments call_recDir {W} _ _ _.
Arguments call_Add {W} _.
Arguments call_Start {W} _.

Definition run_call {W} (IsHidden : string -> bool) (p : Pipeline W) (c : call W)
  : Pipeline W * list io :=
  match c with
  | call_Watch v watchDir =>
      let '(_, p', out) := Watch (env_AbsPath v) p watchDir in (p', out)
  | call_WatchRecursive v watchDir ignoreHidden =>
      let '(_, p', out) :=
        WatchRecursive (env_AbsPath v) IsHidden (env_fs v) p watchDir ignoreHidden in
      (p', out)
  | call_recDir v order e =>
      let '(p', out, _) := recDir (env_AbsPath v) IsHidden (env_fs v) order p e in
      (p', out)
  | call_Add ws => (Add p ws, [])
  | call_Start NewWatcher =>
      let '(p', out, _) := Start_setup NewWatcher p in (p', out)
  end.

Definition run_calls {W} (IsHidden : string -> bool) (p : Pipeline W)
    (calls : list (call W)) : Pipeline W * list io :=
  fold_left (fun '(q, out) c =>
               let '(q', o) := run_call IsHidden q c in (q', out ++ o))
            calls (p, []).

(** The live event source, when there is one, is subscribed to exactly
    the watch targets, in the same order. *)
Definition subscribed_to_watches {W} (p : Pipeline W) : Prop :=
  match watcher p with
  | Some w => w = Watches p
  | None => True
  end.

(** A hidden detector that looks at the last element of a path. *)
Definition base_hidden (path : string) : bool :=
  dot_hidden (filepath.Base path).

Definition example_env : env :=
  {| env_AbsPath := example_AbsPath example_fs; env_fs := example_fs |}.

(** [extends p p']: [p'] has everything [p] has.  The watch list and the
    workflows of [p] are the leading entries of those of [p'], every
    recursive root of [p] is one of [p'], and the sinks and the
    verbosity are the same. *)
Definition extends {W} (p p' : Pipeline W) : Prop :=
  Watches p `prefix_of` Watches p' /\
  dom (recDirs p) ⊆ dom (recDirs p') /\
  Workflows p `prefix_of` Workflows p' /\
  Wout p' = Wout p /\ Werr p' = Werr p /\ Verbose p' = Verbose p.

(** The state every call keeps: no directory twice in the watch list,
    and the live event source subscribed to exactly the watch list. *)
Definition well_formed {W} (p : Pipeline W) : Prop :=
  NoDup (Watches p) /\ subscribed_to_watches p.

(** * Properties *)

(** ** Watch *)

Lemma already_watching_elem (ws : list string) (d : string) :
  already_watching ws d = true <-> d ∈ ws.
Proof.
  induction ws as [|w ws IH]; simpl.
  - split; [discriminate | intros H; inversion H].
  - destruct (String.eqb_spec w d) as [->|Hne].
    + split; [intros _; left | reflexivity].
    + rewrite IH. split; [intros H; now right|].
      intros H. apply elem_of_cons in H as [H|H]; [congruence | exact H].
Qed.

Lemma already_watching_false (ws : list string) (d : string) :
  already_watching ws d = false <-> d ∉ ws.
Proof.
  rewrite <- already_watching_elem.
  destruct (already_watching ws d); split; congruence.
Qed.

Lemma entries_for_app d ws ws' :
  entries_for d (ws ++ ws') = entries_for d ws + entries_for d ws'.
Proof. unfold entries_for. now rewrite filter_app, length_app. Qed.

Lemma entries_for_absent d ws : d ∉ ws -> entries_for d ws = 0.
Proof.
  unfold entries_for. induction ws as [|w ws IH]; intros H; [reflexivity|].
  apply not_elem_of_cons in H as [Hne H].
  rewrite filter_cons_False by congruence. now apply IH.
Qed.

Lemma entries_for_NoDup d ws : NoDup ws -> d ∈ ws -> entries_for d ws = 1.
Proof.
  induction 1 as [|w ws Hnotin Hnd IH]; intros Hin.
  - inversion Hin.
  - change (w :: ws) with ([w] ++ ws). rewrite entries_for_app.
    apply elem_of_cons in Hin as [->|Hin].
    + rewrite (entries_for_absent w ws Hnotin).
      unfold entries_for. now rewrite filter_cons_True.
    + rewrite (IH Hin). unfold entries_for.
      rewrite filter_cons_False; [reflexivity|].
      intros ->. contradiction.
Qed.

Section WatchFacts.

Context {W : Type}.
Variable AbsPath : string -> string * option error.
Implicit Types p : Pipeline W.

(** The three ways out of [Watch]. *)
Lemma Watch_failed p watchDir d err :
  AbsPath watchDir = (d, Some err) ->
  Watch AbsPath p watchDir =
    (("", Some err), p,
     if Verbose p then [Fprintln (Wout p) [error_text err]] else []).
Proof. intros H. unfold Watch. now rewrite H. Qed.

Lemma Watch_present p watchDir d :
  AbsPath watchDir = (d, None) -> d ∈ Watches p ->
  Watch AbsPath p watchDir = ((d, None), p, []).
Proof.
  intros H Hin. unfold Watch. rewrite H.
  apply already_watching_elem in Hin. now rewrite Hin.
Qed.

Lemma Watch_fresh p watchDir d :
  AbsPath watchDir = (d, None) -> d ∉ Watches p ->
  Watch AbsPath p watchDir =
    ((d, None),
     set_watcher (option_map (fun w => watcher_Add w d) (watcher p))
       (set_Watches (Watches p ++ [d]) p),
     []).
Proof.
  intros H Hnotin. unfold Watch. rewrite H.
  apply already_watching_false in Hnotin. rewrite Hnotin.
  destruct p as [nm ws wo we wfs v [w|] rd]; reflexivity.
Qed.

(** [Watch] only ever appends the resolved path, and prints only on
    failure; it leaves every other field alone. *)
Lemma Watch_Watches p watchDir :
  Watches (Watch AbsPath p watchDir).1.2 =
    match AbsPath watchDir with
    | (d, None) => if bool_decide (d ∈ Watches p) then Watches p
                   else Watches p ++ [d]
    | _ => Watches p
    end.
Proof.
  destruct (AbsPath watchDir) as [d [err|]] eqn:H.
  - now rewrite (Watch_failed _ _ _ _ H).
  - case_bool_decide as Hin.
    + now rewrite (Watch_present _ _ _ H Hin).
    + now rewrite (Watch_fresh _ _ _ H Hin).
Qed.

Lemma Watch_frame p watchDir :
  let p' := (Watch AbsPath p watchDir).1.2 in
  Name p' = Name p /\ Wout p' = Wout p /\ Werr p' = Werr p /\
  Workflows p' = Workflows p /\ Verbose p' = Verbose p /\
  recDirs p' = recDirs p.
Proof.
  destruct (AbsPath watchDir) as [d [err|]] eqn:H; simpl.
  - now rewrite (Watch_failed _ _ _ _ H).
  - destruct (decide (d ∈ Watches p)) as [Hin|Hin].
    + now rewrite (Watch_present _ _ _ H Hin).
    + now rewrite (Watch_fresh _ _ _ H Hin).
Qed.

Lemma Watch_NoDup p watchDir :
  NoDup (Watches p) -> NoDup (Watches (Watch AbsPath p watchDir).1.2).
Proof.
  intros Hnd. rewrite Watch_Watches.
  destruct (AbsPath watchDir) as [d [err|]]; [exact Hnd|].
  case_bool_decide as Hin; [exact Hnd|].
  apply NoDup_app. split; [exact Hnd|]. split.
  - intros x Hx Hx'. apply list_elem_of_singleton in Hx'. now subst.
  - apply NoDup_singleton.
Qed.

End WatchFacts.

(** C3. [Watch] is atomic on failure: when the path does not resolve,
    [Watch] returns the resolution error and the pipeline it leaves is
    the one it was given: the same watch list and the same subscriptions
    of the event source.  The only effect is the line printed to the
    output sink of a verbose pipeline. *)
Theorem Watch_atomic_on_failure {W : Type}
    (AbsPath : string -> string * option error) (p : Pipeline W)
    (watchDir d : string) (err : error) :
  AbsPath watchDir = (d, Some err) ->
  let '(r, p', out) := Watch AbsPath p watchDir in
  r = ("", Some err) /\ p' = p /\
  Watches p' = Watches p /\ watcher p' = watcher p /\
  out = if Verbose p then [Fprintln (Wout p) [error_text err]] else [].
Proof.
  intros H. rewrite (Watch_failed AbsPath p watchDir d err H). auto.
Qed.

Lemma Watch_atomic_on_failure_witness :
  let p : Pipeline unit :=
    set_watcher (Some ["/r"]) (set_Watches ["/r"] (NewPipeline "w" true)) in
  let '(r, p', out) := Watch (example_AbsPath example_fs) p "/nope" in
  r = ("", Some (errors_New "stat /nope: no such directory")) /\ p' = p /\
  Watches p' = ["/r"] /\ watcher p' = Some ["/r"] /\
  out = [Fprintln os_Stdout ["stat /nope: no such directory"]].
Proof.
  exact (Watch_atomic_on_failure (example_AbsPath example_fs)
           (set_watcher (Some ["/r"]) (set_Watches ["/r"] (NewPipeline "w" true)))
           "/nope" "" (errors_New "stat /nope: no such directory") eq_refl).
Defined.

(** C2. [Watch] is idempotent: of two calls whose paths resolve to the
    same absolute directory [d] (each under the resolver in force at its
    call), the second returns [d] and leaves the pipeline as the first
    left it, nothing is printed by it, and the watch list then holds
    exactly one entry for [d]; the list stays free of duplicates. *)
Theorem Watch_idempotent {W : Type}
    (AbsPath1 AbsPath2 : string -> string * option error) (p : Pipeline W)
    (a b d : string) :
  NoDup (Watches p) ->
  AbsPath1 a = (d, None) ->
  AbsPath2 b = (d, None) ->
  let '(r1, p1, _) := Watch AbsPath1 p a in
  let '(r2, p2, out2) := Watch AbsPath2 p1 b in
  r1 = (d, None) /\ r2 = (d, None) /\ p2 = p1 /\ out2 = [] /\
  entries_for d (Watches p2) = 1 /\ NoDup (Watches p2).
Proof.
  intros Hnd Ha Hb.
  pose proof (Watch_NoDup AbsPath1 p a Hnd) as Hnd1.
  pose proof (Watch_Watches AbsPath1 p a) as Hws. rewrite Ha in Hws.
  assert (Hr1 : (Watch AbsPath1 p a).1.1 = (d, None)).
  { destruct (decide (d ∈ Watches p)) as [Hin|Hin].
    - now rewrite (Watch_present _ _ _ _ Ha Hin).
    - now rewrite (Watch_fresh _ _ _ _ Ha Hin). }
  destruct (Watch AbsPath1 p a) as [[r1 p1] out1]. simpl in *.
  assert (Hin1 : d ∈ Watches p1).
  { rewrite Hws. case_bool_decide; [assumption|].
    apply elem_of_app. right. now left. }
  rewrite (Watch_present AbsPath2 p1 b d Hb Hin1).
  repeat split; auto. now apply entries_for_NoDup.
Qed.

Lemma Watch_idempotent_witness :
  let '(r1, p1, _) := Watch (example_AbsPath example_fs) example_pipeline "/r/src/../" in
  let '(r2, p2, out2) := Watch (example_AbsPath example_fs) p1 "/r" in
  r1 = ("/r", None) /\ r2 = ("/r", None) /\ p2 = p1 /\ out2 = [] /\
  entries_for "/r" (Watches p2) = 1 /\ NoDup (Watches p2).
Proof.
  exact (Watch_idempotent (example_AbsPath example_fs) (example_AbsPath example_fs)
           example_pipeline "/r/src/../" "/r" "/r"
           (NoDup_nil_2 : NoDup (Watches example_pipeline)) eq_refl eq_refl).
Defined.

(** ** Induction over file trees *)

Section node_induction.

Variable P : os.node -> Prop.
Hypothesis P_File : P os.File.
Hypothesis P_Dir :
  forall readable entries,
    Forall (fun e => match e.2 with Some c => P c | None => True end) entries ->
    P (os.Dir readable entries).

Fixpoint node_nested_ind (n : os.node) : P n :=
  match n with
  | os.File => P_File
  | os.Dir readable entries =>
      P_Dir readable entries
        ((fix all (l : list (string * option os.node))
            : Forall (fun e => match e.2 with Some c => P c | None => True end) l :=
            match l with
            | [] => List.Forall_nil _
            | (nm, Some c) :: l' =>
                List.Forall_cons _ (nm, Some c) l' (node_nested_ind c) (all l')
            | (nm, None) :: l' => List.Forall_cons _ (nm, None) l' I (all l')
            end) entries)
  end.

End node_induction.

(** ** The walk of WatchRecursive *)

Section WalkFacts.

Context {W : Type}.
Variable AbsPath : string -> string * option error.
Variable IsHidden : string -> bool.
Implicit Types p : Pipeline W.
Implicit Types s : Pipeline W * list io.

Lemma Watch_all_app s l l' :
  Watch_all AbsPath s (l ++ l') = Watch_all AbsPath (Watch_all AbsPath s l) l'.
Proof. apply fold_left_app. Qed.

Lemma Watch_all_cons p out path l :
  Watch_all AbsPath (p, out) (path :: l) =
    Watch_all AbsPath
      ((Watch AbsPath p path).1.2, out ++ (Watch AbsPath p path).2) l.
Proof.
  unfold Watch_all. simpl.
  now destruct (Watch AbsPath p path) as [[r p'] o].
Qed.

(** The walk hands exactly the survivors to [Watch], in order. *)
Lemma walk_WatchRecursive ignoreHidden n :
  forall path name s,
    walk path name n (WatchRecursive_walkFn AbsPath IsHidden ignoreHidden) s =
      (Watch_all AbsPath s (survivors IsHidden ignoreHidden path name n),
       walk_error IsHidden ignoreHidden name n).
Proof.
  induction n as [|readable entries IH] using node_nested_ind;
    intros path name [p out].
  - reflexivity.
  - cbn [walk survivors walk_error].
    destruct readable; [|reflexivity].
    cbn [WatchRecursive_walkFn os.IsDir os.Name negb orb].
    destruct (IsHidden name && ignoreHidden); [reflexivity|].
    rewrite Watch_all_cons.
    destruct (Watch AbsPath p path) as [[r p'] o]. cbn [fst snd].
    rewrite bool_decide_eq_false_2 by (intros H; now apply H).
    generalize (p', out ++ o). clear p out r p' o.
    induction IH as [|[nm [c|]] l Hc Hl IHl]; intros s.
    + reflexivity.
    + cbn [snd] in Hc. rewrite Hc, Watch_all_app.
      assert (Hskip :
        (bool_decide (walk_error IsHidden ignoreHidden nm c <> None)
         && (negb (os.is_dir c)
             || negb (bool_decide (walk_error IsHidden ignoreHidden nm c = Some SkipDir))))
        = false).
      { destruct c as [|[|] es]; cbn; try reflexivity.
        destruct (IsHidden nm && ignoreHidden); reflexivity. }
      destruct (bool_decide (walk_error IsHidden ignoreHidden nm c <> None)) eqn:He.
      * cbn [andb] in Hskip. rewrite Hskip. apply IHl.
      * apply IHl.
    + destruct s as [p out]. cbn [WatchRecursive_walkFn].
      rewrite bool_decide_eq_false_2 by (intros H; now apply H).
      apply IHl.
Qed.

End WalkFacts.

(** ** Survivors are the directories reached through visible ones *)

Section Survivors.

Variable IsHidden : string -> bool.
Variable ignoreHidden : bool.

Lemma survivors_Dir path name readable entries :
  survivors IsHidden ignoreHidden path name (os.Dir readable entries) =
    if negb readable || (IsHidden name && ignoreHidden) then []
    else path ::
         flat_map (fun e => match e.2 with
                            | Some c => survivors IsHidden ignoreHidden
                                          (filepath.Join path e.1) e.1 c
                            | None => []
                            end) entries.
Proof.
  cbn [survivors]. destruct (negb readable || _); [reflexivity|].
  f_equal. induction entries as [|[nm [c|]] l IH]; cbn; [reflexivity| |exact IH].
  now rewrite IH.
Qed.

Lemma subdir_survives path name n q chain :
  subdir path name n q chain ->
  Forall (visible IsHidden ignoreHidden) chain ->
  q ∈ survivors IsHidden ignoreHidden path name n.
Proof.
  induction 1 as [path name readable entries
                 |path name readable entries nm c q chain Hin Hsub IH];
    intros Hvis; rewrite survivors_Dir.
  - apply Forall_cons in Hvis as [[Hr Hh] _]. cbn in Hr, Hh.
    rewrite Hr, Hh. cbn. left.
  - apply Forall_cons in Hvis as [[Hr Hh] Hrest]. cbn in Hr, Hh.
    rewrite Hr, Hh. cbn. right.
    apply list_elem_of_In, in_flat_map. exists (nm, Some c). split.
    + now apply list_elem_of_In.
    + apply list_elem_of_In. cbn. now apply IH.
Qed.

Lemma survivor_is_subdir n :
  forall path name q,
    q ∈ survivors IsHidden ignoreHidden path name n ->
    exists chain, subdir path name n q chain /\
                  Forall (visible IsHidden ignoreHidden) chain.
Proof.
  induction n as [|readable entries IH] using node_nested_ind;
    intros path name q Hq.
  - inversion Hq.
  - rewrite survivors_Dir in Hq.
    destruct readable; [|inversion Hq]. cbn [negb orb] in Hq.
    destruct (IsHidden name && ignoreHidden) eqn:Hh; [inversion Hq|].
    assert (Hv : visible IsHidden ignoreHidden (name, true)) by now split.
    apply elem_of_cons in Hq as [->|Hq].
    + exists [(name, true)]. split; [constructor|]. now repeat constructor.
    + apply list_elem_of_In, in_flat_map in Hq as [[nm child] [Hin Hq]].
      cbn [fst snd] in Hq. apply list_elem_of_In in Hin.
      rewrite Forall_forall in IH. specialize (IH _ Hin). cbn [snd] in IH.
      destruct child as [c|]; [|inversion Hq].
      apply list_elem_of_In in Hq.
      destruct (IH _ _ _ Hq) as [chain [Hsub Hvis]].
      exists ((name, true) :: chain). split.
      * now apply subdir_below with nm c.
      * now constructor.
Qed.

Lemma survivors_iff path name n q :
  q ∈ survivors IsHidden ignoreHidden path name n <->
  exists chain, subdir path name n q chain /\
                Forall (visible IsHidden ignoreHidden) chain.
Proof.
  split; [apply survivor_is_subdir|].
  intros [chain [Hsub Hvis]]. now apply subdir_survives with chain.
Qed.

End Survivors.

(** ** WatchRecursive *)

Section WatchAllFacts.

Context {W : Type}.
Variable AbsPath : string -> string * option error.
Implicit Types p : Pipeline W.
Implicit Types s : Pipeline W * list io.

Lemma Watch_all_frame s l :
  let p' := (Watch_all AbsPath s l).1 in
  Name p' = Name s.1 /\ Wout p' = Wout s.1 /\ Werr p' = Werr s.1 /\
  Workflows p' = Workflows s.1 /\ Verbose p' = Verbose s.1 /\
  recDirs p' = recDirs s.1.
Proof.
  revert s. induction l as [|q l IH]; intros [p out]; [cbn; auto 6|].
  rewrite Watch_all_cons. cbn zeta in *.
  destruct (IH ((Watch AbsPath p q).1.2, out ++ (Watch AbsPath p q).2))
    as (H1 & H2 & H3 & H4 & H5 & H6).
  destruct (Watch_frame AbsPath p q) as (G1 & G2 & G3 & G4 & G5 & G6).
  cbn [fst snd] in *. repeat split; congruence.
Qed.

Lemma Watch_all_NoDup s l :
  NoDup (Watches s.1) -> NoDup (Watches (Watch_all AbsPath s l).1).
Proof.
  revert s. induction l as [|q l IH]; intros [p out] Hnd; [exact Hnd|].
  rewrite Watch_all_cons. apply IH. cbn [fst]. now apply Watch_NoDup.
Qed.

(** When every path resolves to itself, the watch list afterwards holds
    what it held before and the paths. *)
Lemma Watch_all_Watches s l q :
  (forall x, x ∈ l -> AbsPath x = (x, None)) ->
  q ∈ Watches (Watch_all AbsPath s l).1 <-> q ∈ Watches s.1 \/ q ∈ l.
Proof.
  revert s. induction l as [|x l IH]; intros [p out] Hres.
  - cbn. split; [now left|]. intros [H|H]; [exact H|inversion H].
  - rewrite Watch_all_cons, IH by (intros y Hy; apply Hres; now right).
    cbn [fst]. rewrite Watch_Watches, (Hres x) by now left.
    case_bool_decide as Hin.
    + split; [intros [H|H]; [now left|right; now right]|].
      intros [H|H]; [now left|].
      apply elem_of_cons in H as [->|H]; [now left|now right].
    + rewrite elem_of_app, list_elem_of_singleton, elem_of_cons. tauto.
Qed.

(** Without any assumption on the resolver, the watch list only grows. *)
Lemma Watch_all_grows s l q :
  q ∈ Watches s.1 -> q ∈ Watches (Watch_all AbsPath s l).1.
Proof.
  revert s. induction l as [|x l IH]; intros [p out] Hq; [exact Hq|].
  rewrite Watch_all_cons. apply IH. cbn [fst]. rewrite Watch_Watches.
  destruct (AbsPath x) as [d [err|]]; [exact Hq|].
  case_bool_decide; [exact Hq|]. apply elem_of_app. now left.
Qed.

End WatchAllFacts.

Section WatchRecursiveFacts.

Context {W : Type}.
Variable AbsPath : string -> string * option error.
Variable IsHidden : string -> bool.
Variable fs : string -> option os.node.
Implicit Types p : Pipeline W.
Implicit Types s : Pipeline W * list io.

(** [WatchRecursive] on a path that resolves to [d] where [Lstat]
    finds [root]: the root is recorded and the survivors are watched. *)
Lemma WatchRecursive_resolved p watchDir ignoreHidden d root :
  AbsPath watchDir = (d, None) ->
  fs d = Some root ->
  WatchRecursive AbsPath IsHidden fs p watchDir ignoreHidden =
    let s := Watch_all AbsPath
               (set_recDirs (<[d := ignoreHidden]> (recDirs p)) p, [])
               (survivors IsHidden ignoreHidden d (filepath.Base d) root) in
    (None, s.1, s.2).
Proof.
  intros Hd Hroot. unfold WatchRecursive, Walk. rewrite Hd, Hroot.
  rewrite walk_WatchRecursive.
  now destruct (Watch_all _ _ _) as [p2 out].
Qed.

Lemma WatchRecursive_failed p watchDir ignoreHidden d err :
  AbsPath watchDir = (d, Some err) ->
  WatchRecursive AbsPath IsHidden fs p watchDir ignoreHidden = (Some err, p, []).
Proof. intros H. unfold WatchRecursive. now rewrite H. Qed.

Lemma WatchRecursive_no_root p watchDir ignoreHidden d :
  AbsPath watchDir = (d, None) ->
  fs d = None ->
  WatchRecursive AbsPath IsHidden fs p watchDir ignoreHidden =
    (None, set_recDirs (<[d := ignoreHidden]> (recDirs p)) p, []).
Proof. intros Hd Hroot. unfold WatchRecursive, Walk. now rewrite Hd, Hroot. Qed.

(** [WatchRecursive] leaves the fields [queryWorkflow] reads alone and
    keeps the watch list free of duplicates. *)
Lemma WatchRecursive_frame p watchDir ignoreHidden :
  let p' := (WatchRecursive AbsPath IsHidden fs p watchDir ignoreHidden).1.2 in
  Wout p' = Wout p /\ Werr p' = Werr p /\ Workflows p' = Workflows p /\
  Verbose p' = Verbose p /\ (NoDup (Watches p) -> NoDup (Watches p')).
Proof.
  destruct (AbsPath watchDir) as [d [err|]] eqn:Hd.
  - rewrite (WatchRecursive_failed _ _ _ _ _ Hd). cbn. auto.
  - destruct (fs d) as [root|] eqn:Hroot.
    + rewrite (WatchRecursive_resolved _ _ _ _ _ Hd Hroot). cbn [fst snd].
      set (s0 := (set_recDirs _ p, [])).
      destruct (Watch_all_frame AbsPath s0 (survivors IsHidden ignoreHidden d
                  (filepath.Base d) root)) as (_ & H2 & H3 & H4 & H5 & _).
      repeat split; try assumption.
      intros Hnd. now apply Watch_all_NoDup.
    + rewrite (WatchRecursive_no_root _ _ _ _ Hd Hroot). cbn. auto.
Qed.

End WatchRecursiveFacts.

(** C4, as amended.  [WatchRecursive] with [ignoreHidden = true], on a
    path resolving to [d] where [Lstat] finds [root], and with a resolver
    that maps every walked directory to itself: the call succeeds and
    records [d] as a hidden-ignoring recursive root; afterwards the watch
    list holds what it held before and exactly the directories of the
    tree reached from the root through readable directories none of
    which, the root and the directory itself included, is hidden.  So a
    hidden directory and everything below it is never added; the root is
    added when it is a readable directory whose own name is not hidden;
    and when the root's own name is hidden nothing is added at all. *)
Theorem WatchRecursive_hidden_exclusion {W : Type}
    (AbsPath : string -> string * option error) (IsHidden : string -> bool)
    (fs : string -> option os.node) (p : Pipeline W)
    (watchDir d : string) (root : os.node) :
  AbsPath watchDir = (d, None) ->
  fs d = Some root ->
  (forall q, q ∈ survivors IsHidden true d (filepath.Base d) root ->
             AbsPath q = (q, None)) ->
  let '(err, p', _) := WatchRecursive AbsPath IsHidden fs p watchDir IgnoreHidden in
  err = None /\
  recDirs p' = <[d := true]> (recDirs p) /\
  (forall q, q ∈ Watches p' <->
             q ∈ Watches p \/
             exists chain, subdir d (filepath.Base d) root q chain /\
                           Forall (visible IsHidden true) chain) /\
  (forall entries, root = os.Dir true entries ->
                   IsHidden (filepath.Base d) = false -> d ∈ Watches p') /\
  (IsHidden (filepath.Base d) = true -> Watches p' = Watches p).
Proof.
  intros Hd Hroot Hres. unfold IgnoreHidden.
  rewrite (WatchRecursive_resolved AbsPath IsHidden fs p watchDir true d root Hd Hroot).
  cbn zeta. set (s0 := (set_recDirs (<[d:=true]> (recDirs p)) p, [])).
  set (l := survivors IsHidden true d (filepath.Base d) root) in *.
  assert (Hiff : forall q, q ∈ Watches (Watch_all AbsPath s0 l).1 <->
             q ∈ Watches p \/
             exists chain, subdir d (filepath.Base d) root q chain /\
                           Forall (visible IsHidden true) chain).
  { intros q. rewrite (Watch_all_Watches AbsPath s0 l q Hres).
    unfold l. now rewrite survivors_iff. }
  split; [reflexivity|]. split.
  { now destruct (Watch_all_frame AbsPath s0 l) as (_ & _ & _ & _ & _ & ->). }
  split; [exact Hiff|]. split.
  - intros entries -> Hvis. apply Hiff. right.
    exists [(filepath.Base d, true)]. split; [constructor|].
    repeat constructor. cbn. now rewrite Hvis.
  - intros Hhid. unfold l.
    destruct root as [|readable entries]; [reflexivity|].
    rewrite survivors_Dir, Hhid, orb_true_r. reflexivity.
Qed.

Lemma WatchRecursive_hidden_exclusion_witness :
  let '(err, p', _) :=
    WatchRecursive (example_AbsPath example_fs) dot_hidden example_fs
      example_pipeline "/r" IgnoreHidden in
  err = None /\
  recDirs p' = <["/r" := true]> (recDirs example_pipeline) /\
  (forall q, q ∈ Watches p' <->
             q ∈ Watches example_pipeline \/
             exists chain,
               subdir "/r" (filepath.Base "/r")
                 (default os.File (example_fs "/r")) q chain /\
               Forall (visible dot_hidden true) chain) /\
  (forall entries, default os.File (example_fs "/r") = os.Dir true entries ->
                   dot_hidden (filepath.Base "/r") = false -> "/r" ∈ Watches p') /\
  (dot_hidden (filepath.Base "/r") = true -> Watches p' = Watches example_pipeline).
Proof.
  apply (WatchRecursive_hidden_exclusion (example_AbsPath example_fs) dot_hidden
           example_fs example_pipeline "/r" "/r"
           (default os.File (example_fs "/r")) eq_refl eq_refl).
  intros q Hq. vm_compute in Hq.
  repeat (apply elem_of_cons in Hq as [->|Hq]; [reflexivity|]).
  inversion Hq.
Defined.

(** C4 as stated fails for a root whose own name is hidden: asked to
    watch [/r/.cfg] recursively while ignoring hidden directories, the
    call succeeds, records the root, and adds neither the root nor its
    visible subdirectory [/r/.cfg/sub]. *)
Lemma WatchRecursive_hidden_root_not_added :
  let '(err, p', out) :=
    WatchRecursive (example_AbsPath example_fs) dot_hidden example_fs
      example_pipeline "/r/.cfg" IgnoreHidden in
  example_AbsPath example_fs "/r/.cfg" = ("/r/.cfg", None) /\
  example_fs "/r/.cfg" = Some (dir [("sub", Some (dir []))]) /\
  err = None /\ recDirs p' !! "/r/.cfg" = Some true /\
  Watches p' = [] /\ "/r/.cfg" ∉ Watches p'.
Proof.
  vm_compute. repeat split. intros H. inversion H.
Qed.

(** The hidden-exclusion example of the spec: [/r] with [.git/objects]. *)
Example WatchRecursive_skips_git :
  Watches (WatchRecursive (example_AbsPath example_fs) dot_hidden example_fs
             example_pipeline "/r" IgnoreHidden).1.2
  = ["/r"; "/r/src"; "/r/src/pkg"].
Proof. reflexivity. Qed.

(** With hidden directories included, the same walk adds them too. *)
Example WatchRecursive_includes_git :
  Watches (WatchRecursive (example_AbsPath example_fs) dot_hidden example_fs
             example_pipeline "/r" IncludeHidden).1.2
  = ["/r"; "/r/.cfg"; "/r/.cfg/sub"; "/r/.git"; "/r/.git/objects";
     "/r/src"; "/r/src/pkg"].
Proof. reflexivity. Qed.

(** ** filepath.Rel between rooted paths *)

Lemma clean_step_rooted_no_dotdot stack e :
  ".." ∉ stack -> ".." ∉ filepath.clean_step true stack e.
Proof.
  intros Hs. unfold filepath.clean_step.
  destruct (String.eqb e "" || String.eqb e "."); [exact Hs|].
  destruct (String.eqb_spec e "..") as [->|Hne].
  - destruct stack as [|top st]; [exact Hs|].
    destruct (String.eqb top ".."); [exact Hs|].
    intros H. apply Hs. now right.
  - intros H. apply elem_of_cons in H as [H|H]; [congruence|contradiction].
Qed.

Lemma Clean_elems_rooted_no_dotdot s :
  filepath.rooted s = true -> ".." ∉ filepath.Clean_elems s.
Proof.
  intros Hr. unfold filepath.Clean_elems. rewrite Hr.
  assert (H : forall l stack, ".." ∉ stack ->
                ".." ∉ fold_left (filepath.clean_step true) l stack).
  { induction l as [|e l IH]; intros stack Hs; [exact Hs|].
    cbn. apply IH. now apply clean_step_rooted_no_dotdot. }
  intros Hin. apply (H (filepath.split_sep s) []).
  - intros Hnil. inversion Hnil.
  - apply list_elem_of_In, in_rev. now apply list_elem_of_In.
Qed.

Lemma strip_common_base base targ x :
  x ∈ (filepath.strip_common base targ).1 -> x ∈ base.
Proof.
  revert targ. induction base as [|b base IH]; intros targ Hx; [exact Hx|].
  destruct targ as [|t targ]; [exact Hx|]. cbn in Hx.
  destruct (String.eqb b t); [right; now apply IH with targ | exact Hx].
Qed.

(** Between two rooted paths [Rel] never fails, whether or not one
    contains the other. *)
Lemma Rel_rooted basepath targpath :
  filepath.rooted basepath = true ->
  filepath.rooted targpath = true ->
  filepath.Rel basepath targpath = None.
Proof.
  intros Hb Ht. unfold filepath.Rel.
  destruct (bool_decide _); [reflexivity|].
  rewrite Hb, Ht. cbn [Bool.eqb negb].
  pose proof (Clean_elems_rooted_no_dotdot basepath Hb) as Hno.
  match goal with
  | |- match filepath.strip_common ?b ?t with _ => _ end = _ =>
      pose proof (strip_common_base b t) as Hsub;
      destruct (filepath.strip_common b t) as [[|x base'] [|y targ']]
  end; try reflexivity.
  destruct (String.eqb_spec x "..") as [->|_]; [|reflexivity].
  exfalso. apply Hno, Hsub. now left.
Qed.

(** ** recDir *)

Section RecDirFacts.

Context {W : Type}.
Variable AbsPath : string -> string * option error.
Variable IsHidden : string -> bool.
Variable fs : string -> option os.node.
Implicit Types p : Pipeline W.

Lemma recDir_range_calls p e h order :
  (recDir_range AbsPath IsHidden fs p e h order).2 =
    match List.find (recDir_match h (fsnotify.Name e)) order with
    | Some (_, iHidden) => [(fsnotify.Name e, iHidden)]
    | None => []
    end.
Proof.
  induction order as [|[dir0 iHidden] rest IH]; [reflexivity|].
  cbn [recDir_range List.find]. unfold recDir_match at 1. cbn [fst snd].
  destruct (h && iHidden); [exact IH|]. cbn [negb andb].
  destruct (filepath.Rel dir0 (fsnotify.Name e)) as [err|].
  - rewrite bool_decide_eq_false_2 by discriminate. exact IH.
  - rewrite bool_decide_eq_true_2 by reflexivity.
    now destruct (WatchRecursive _ _ _ _ _ _) as [[err p'] out].
Qed.

Lemma recDir_range_state p e h order :
  (recDir_range AbsPath IsHidden fs p e h order).1 =
    match (recDir_range AbsPath IsHidden fs p e h order).2 with
    | (name, iHidden) :: _ =>
        let r := WatchRecursive AbsPath IsHidden fs p name iHidden in
        (r.1.2, r.2)
    | [] => (p, [])
    end.
Proof.
  induction order as [|[dir0 iHidden] rest IH]; [reflexivity|].
  cbn [recDir_range].
  destruct (h && iHidden); [exact IH|].
  destruct (filepath.Rel dir0 (fsnotify.Name e)) as [err|]; [exact IH|].
  destruct (WatchRecursive AbsPath IsHidden fs p (fsnotify.Name e) iHidden)
    as [[err p'] out] eqn:Hcall.
  cbn. now rewrite Hcall.
Qed.

(** At most one rescan per event, and it is a rescan of the event's
    own path. *)
Lemma recDir_at_most_one order p e :
  let calls := (recDir AbsPath IsHidden fs order p e).2 in
  length calls <= 1 /\ forall c, c ∈ calls -> c.1 = fsnotify.Name e.
Proof.
  unfold recDir.
  destruct (negb (N.eqb _ _)); [cbn; split; [lia|intros c H; inversion H]|].
  destruct (negb (stat_is_dir _ _)); [cbn; split; [lia|intros c H; inversion H]|].
  rewrite recDir_range_calls.
  destruct (List.find _ order) as [[d0 ih]|]; cbn.
  - split; [lia|]. intros c H. apply list_elem_of_singleton in H. now subst.
  - split; [lia|]. intros c H. inversion H.
Qed.

(** What the code decides: for a create-or-rename event on a
    directory, a rescan happens exactly when some recursive root is not
    excluded on hidden grounds and [Rel] relates the event's path to
    it, in whatever order the map is ranged over. *)
Lemma recDir_rescans_iff order p e :
  order ≡ₚ map_to_list (recDirs p) ->
  N.land dirOps (fsnotify.Op e) = fsnotify.Op e ->
  stat_is_dir fs (fsnotify.Name e) = true ->
  (recDir AbsPath IsHidden fs order p e).2 <> [] <->
  exists root iHidden,
    recDirs p !! root = Some iHidden /\
    (IsHidden (fsnotify.Name e) && iHidden) = false /\
    filepath.Rel root (fsnotify.Name e) = None.
Proof.
  intros Hperm Hop Hdir. unfold recDir.
  rewrite Hop, N.eqb_refl, Hdir. cbn [negb].
  rewrite recDir_range_calls.
  destruct (List.find _ order) as [[root ih]|] eqn:Hfind.
  - split; [intros _|discriminate].
    apply find_some in Hfind as [Hin Hm].
    exists root, ih. unfold recDir_match in Hm. cbn [fst snd] in Hm.
    apply andb_prop in Hm as [Hh Hrel].
    apply negb_true_iff in Hh. apply bool_decide_eq_true in Hrel.
    repeat split; try assumption.
    apply elem_of_map_to_list. rewrite <- Hperm. now apply list_elem_of_In.
  - split; [congruence|]. intros (root & ih & Hlook & Hh & Hrel). exfalso.
    apply elem_of_map_to_list in Hlook. rewrite <- Hperm in Hlook.
    apply list_elem_of_In in Hlook.
    pose proof (find_none _ _ Hfind _ Hlook) as Hm.
    unfold recDir_match in Hm. cbn [fst snd] in Hm.
    rewrite Hh, Hrel, bool_decide_eq_true_2 in Hm by reflexivity.
    discriminate Hm.
Qed.

(** The rescan writes none of the fields [queryWorkflow] reads. *)
Lemma recDir_frame order p e :
  let p' := (recDir AbsPath IsHidden fs order p e).1.1 in
  Wout p' = Wout p /\ Werr p' = Werr p /\ Workflows p' = Workflows p /\
  Verbose p' = Verbose p /\ (NoDup (Watches p) -> NoDup (Watches p')).
Proof.
  unfold recDir.
  destruct (negb (N.eqb _ _)); [cbn; auto|].
  destruct (negb (stat_is_dir _ _)); [cbn; auto|].
  rewrite recDir_range_state.
  destruct ((recDir_range _ _ _ _ _ _ _).2) as [|[name ih] rest]; [cbn; auto|].
  cbn zeta. cbn [fst snd]. apply WatchRecursive_frame.
Qed.

End RecDirFacts.

(** The watch list of a pipeline built through the exported functions
    never holds a directory twice. *)
Lemma Add_Watches {W : Type} (ws : list (Workflower W)) :
  forall p : Pipeline W, Watches (Add p ws) = Watches p.
Proof.
  unfold Add. induction ws as [|w ws IH]; intros p; [reflexivity|].
  cbn [fold_left]. now rewrite IH.
Qed.

Lemma reachable_NoDup {W : Type} AbsPath IsHidden fs (p : Pipeline W) :
  reachable AbsPath IsHidden fs p -> NoDup (Watches p).
Proof.
  induction 1 as [name verbose|p watchDir _ IH|p watchDir ih _ IH
                 |order p e _ IH|p ws _ IH|p _ IH].
  - apply NoDup_nil_2.
  - now apply Watch_NoDup.
  - now apply WatchRecursive_frame.
  - now apply recDir_frame.
  - now rewrite Add_Watches.
  - exact IH.
Qed.

(** C1, the failing input.  A pipeline whose only recursive root is
    [/a] (so the map is ranged over in the one possible order) and which
    also watches the plain directory [/b] receives the creation of the
    directory [/b/new].  [/b/new] does not lie under [/a], yet [Rel]
    relates the two rooted paths, so [recDir] calls
    [WatchRecursive("/b/new", false)]: [/b/new] and [/b/new/deep] are
    watched and [/b/new] becomes a recursive root. *)
Theorem recDir_rescans_outside_every_root :
  let p : Pipeline unit :=
    set_recDirs {["/a" := false]}
      (set_Watches ["/a"; "/a/sub"; "/a/sub/new"; "/b"] example_pipeline) in
  let e := {| fsnotify.Name := "/b/new"; fsnotify.Op := fsnotify.Create |} in
  let '(p', _, calls) :=
    recDir (example_AbsPath example_fs) dot_hidden example_fs
      (map_to_list (recDirs p)) p e in
  map_to_list (recDirs p) = [("/a", false)] /\
  lies_under "/a" "/b/new" = false /\
  N.land dirOps (fsnotify.Op e) = fsnotify.Op e /\
  stat_is_dir example_fs "/b/new" = true /\
  filepath.Rel "/a" "/b/new" = None /\
  calls = [("/b/new", false)] /\
  Watches p' = ["/a"; "/a/sub"; "/a/sub/new"; "/b"; "/b/new"; "/b/new/deep"] /\
  recDirs p' !! "/b/new" = Some false.
Proof. vm_compute. repeat split. Qed.

(** The rescan the spec describes: a directory created at
    [/a/sub/new] below the recursive root [/a] becomes watched. *)
Example recDir_rescans_below_root :
  let p : Pipeline unit :=
    set_recDirs {["/a" := false]} (set_Watches ["/a"; "/a/sub"] example_pipeline) in
  let e := {| fsnotify.Name := "/a/sub/new"; fsnotify.Op := fsnotify.Create |} in
  lies_under "/a" "/a/sub/new" = true /\
  Watches (recDir (example_AbsPath example_fs) dot_hidden example_fs
             (map_to_list (recDirs p)) p e).1.1
  = ["/a"; "/a/sub"; "/a/sub/new"].
Proof. vm_compute. split; reflexivity. Qed.

(** ** The batcher *)

Lemma batchRun_loop_event evs event rest :
  batchRun_loop evs (case_event event :: rest) = batchRun_loop (evs ++ [event]) rest.
Proof. cbn. now destruct (batchRun_loop (evs ++ [event]) rest). Qed.

Lemma batchRun_loop_tick_empty rest :
  batchRun_loop [] (case_tick :: rest) = batchRun_loop [] rest.
Proof. cbn. now destruct (batchRun_loop [] rest). Qed.

Lemma batchRun_loop_tick_send ev evs rest :
  batchRun_loop (ev :: evs) (case_tick :: rest) =
    ((ev :: evs) :: (batchRun_loop [] rest).1, (batchRun_loop [] rest).2).
Proof. cbn. now destruct (batchRun_loop [] rest). Qed.

Lemma batchRun_loop_done evs rest :
  batchRun_loop evs (case_done :: rest) = ([], returned).
Proof. reflexivity. Qed.

(** A run continues from where its first part left off; once the loop
    is left nothing more happens. *)
Lemma batchRun_loop_app evs pre rest :
  batchRun_loop evs (pre ++ rest) =
    match batchRun_loop evs pre with
    | (sent, in_loop evs') =>
        (sent ++ (batchRun_loop evs' rest).1, (batchRun_loop evs' rest).2)
    | (sent, returned) => (sent, returned)
    end.
Proof.
  revert evs. induction pre as [|c pre IH]; intros evs.
  - cbn. now destruct (batchRun_loop evs rest).
  - destruct c as [event| |].
    + rewrite <- app_comm_cons, !batchRun_loop_event. apply IH.
    + rewrite <- app_comm_cons. destruct evs as [|ev evs].
      * rewrite !batchRun_loop_tick_empty. apply IH.
      * rewrite !batchRun_loop_tick_send, IH.
        now destruct (batchRun_loop [] pre) as [sent [evs'|]].
    + reflexivity.
Qed.

Lemma batchRun_loop_events evs events rest :
  batchRun_loop evs (map case_event events ++ rest) =
    batchRun_loop (evs ++ events) rest.
Proof.
  revert evs. induction events as [|e events IH]; intros evs.
  - cbn. now rewrite app_nil_r.
  - cbn [map]. rewrite <- app_comm_cons, batchRun_loop_event, IH.
    now rewrite <- app_assoc.
Qed.

(** C5. At a tick the batcher sends nothing when nothing has
    accumulated, and otherwise sends exactly one batch, the accumulated
    sequence, and starts again from the empty sequence: a run that has
    sent [sent] and holds [evs] has, one tick later, sent [sent] when
    [evs] is empty and [sent ++ [evs]] otherwise, and holds nothing.  In
    particular any number of ticks without raw events sends no batch. *)
Theorem batchRun_tick_boundary (cases : list selected)
    (sent : list (list fsnotify.Event)) (evs : list fsnotify.Event) :
  batchRun cases = (sent, in_loop evs) ->
  select_step evs case_tick
    = (match evs with [] => None | _ => Some evs end,
       in_loop match evs with [] => evs | _ => [] end) /\
  batchRun (cases ++ [case_tick])
    = (match evs with [] => sent | _ => sent ++ [evs] end, in_loop []) /\
  forall n, batchRun (cases ++ [case_tick] ++ repeat case_tick n)
    = (match evs with [] => sent | _ => sent ++ [evs] end, in_loop []).
Proof.
  intros Hrun. unfold batchRun in *.
  assert (Hticks : forall n, batchRun_loop [] (repeat case_tick n) = ([], in_loop [])).
  { induction n as [|n IH]; [reflexivity|].
    cbn [repeat]. now rewrite batchRun_loop_tick_empty. }
  split; [now destruct evs|]. split.
  - rewrite batchRun_loop_app, Hrun. destruct evs as [|ev evs]; cbn.
    + now rewrite app_nil_r.
    + reflexivity.
  - intros n. rewrite batchRun_loop_app, Hrun. cbn [app].
    destruct evs as [|ev evs].
    + now rewrite batchRun_loop_tick_empty, Hticks, app_nil_r.
    + now rewrite batchRun_loop_tick_send, Hticks.
Qed.

Lemma batchRun_tick_boundary_witness :
  let a := {| fsnotify.Name := "/r/a.go"; fsnotify.Op := fsnotify.Write |} in
  let b := {| fsnotify.Name := "/r/b.go"; fsnotify.Op := fsnotify.Create |} in
  select_step [a; b] case_tick = (Some [a; b], in_loop []) /\
  batchRun ([case_tick; case_event a; case_event b] ++ [case_tick])
    = ([] ++ [[a; b]], in_loop []) /\
  forall n, batchRun ([case_tick; case_event a; case_event b]
                        ++ [case_tick] ++ repeat case_tick n)
    = ([] ++ [[a; b]], in_loop []).
Proof.
  exact (batchRun_tick_boundary
           [case_tick;
            case_event {| fsnotify.Name := "/r/a.go"; fsnotify.Op := fsnotify.Write |};
            case_event {| fsnotify.Name := "/r/b.go"; fsnotify.Op := fsnotify.Create |}]
           []
           [{| fsnotify.Name := "/r/a.go"; fsnotify.Op := fsnotify.Write |};
            {| fsnotify.Name := "/r/b.go"; fsnotify.Op := fsnotify.Create |}]
           eq_refl).
Defined.

(** [n] tick windows without a raw event: no batch. *)
Lemma batchRun_idle_ticks n : batchRun (repeat case_tick n) = ([], in_loop []).
Proof.
  unfold batchRun. induction n as [|n IH]; [reflexivity|].
  cbn [repeat]. now rewrite batchRun_loop_tick_empty.
Qed.

(** C6. Fed any sequence of coalescing windows, each the raw events
    that arrive in it followed by its tick, the batcher sends one batch
    per non-empty window, in window order, and each batch is exactly the
    events of its window in arrival order: no event moves to another
    batch, and nothing is left over.  Three events [A, B, C] in one
    window give the single batch [A, B, C]. *)
Theorem batchRun_windows (windows : list (list fsnotify.Event)) :
  batchRun (flat_map window_cases windows)
    = (filter (fun w => w <> []) windows, in_loop []) /\
  concat (batchRun (flat_map window_cases windows)).1 = concat windows /\
  forall A B C, batchRun (window_cases [A; B; C]) = ([[A; B; C]], in_loop []).
Proof.
  assert (H : batchRun (flat_map window_cases windows)
              = (filter (fun w => w <> []) windows, in_loop [])).
  { unfold batchRun. induction windows as [|w windows IH]; [reflexivity|].
    cbn [flat_map]. unfold window_cases at 1.
    rewrite <- app_assoc, batchRun_loop_events. cbn [app].
    destruct w as [|e w].
    - rewrite batchRun_loop_tick_empty, IH.
      now rewrite filter_cons_False by (intros Hne; now apply Hne).
    - rewrite batchRun_loop_tick_send, IH.
      now rewrite filter_cons_True by discriminate. }
  split; [exact H|]. split; [|reflexivity].
  rewrite H. cbn [fst]. clear H.
  induction windows as [|w windows IH]; [reflexivity|].
  destruct w as [|e w].
  - now rewrite filter_cons_False by (intros Hne; now apply Hne).
  - rewrite filter_cons_True by discriminate. cbn [concat]. now rewrite IH.
Qed.

(** In any run that has not been stopped, what was sent followed by
    what is still held is the raw events in arrival order. *)
Lemma batchRun_loop_preserves_arrivals cases :
  forall evs sent evs',
    batchRun_loop evs cases = (sent, in_loop evs') ->
    concat sent ++ evs' = evs ++ arrivals cases /\ Forall (fun b => b <> []) sent.
Proof.
  induction cases as [|c cases IH]; intros evs sent evs' Hrun.
  - cbn in Hrun. injection Hrun as <- <-. cbn. now rewrite app_nil_r.
  - destruct c as [event| |].
    + rewrite batchRun_loop_event in Hrun. apply IH in Hrun as [Heq Hne].
      split; [|exact Hne]. cbn [arrivals flat_map] in *.
      now rewrite Heq, <- app_assoc.
    + destruct evs as [|ev evs].
      * rewrite batchRun_loop_tick_empty in Hrun. now apply IH in Hrun.
      * rewrite batchRun_loop_tick_send in Hrun.
        destruct (batchRun_loop [] cases) as [sent0 st] eqn:Hrest.
        cbn [fst snd] in Hrun. injection Hrun as <- ->.
        apply IH in Hrest as [Heq Hne]. split.
        -- cbn [concat arrivals flat_map app] in *.
           now rewrite <- app_assoc, Heq.
        -- constructor; [discriminate|exact Hne].
    + discriminate Hrun.
Qed.

(** C7. Once the stop signal is taken the loop is left: whatever the
    batcher held in its unfinished window is dropped, and whatever
    becomes ready afterwards (raw events, ticks, further signals) is
    never looked at, so the batches sent are those sent before the
    signal and no others. *)
Theorem batchRun_stop (pre post : list selected) (evs : list fsnotify.Event) :
  batchRun_loop evs (case_done :: post) = ([], returned) /\
  batchRun (pre ++ case_done :: post) = ((batchRun pre).1, returned) /\
  batchRun (pre ++ case_done :: post) = batchRun (pre ++ [case_done]).
Proof.
  assert (H : forall rest,
             batchRun (pre ++ case_done :: rest) = ((batchRun pre).1, returned)).
  { intros rest. unfold batchRun. rewrite batchRun_loop_app.
    destruct (batchRun_loop [] pre) as [sent [evs'|]]; [|reflexivity].
    rewrite batchRun_loop_done. cbn. now rewrite app_nil_r. }
  split; [reflexivity|]. split; [apply H|]. now rewrite !H.
Qed.

(** Events held when the stop signal arrives are not sent. *)
Example batchRun_stop_drops_partial_window :
  let a := {| fsnotify.Name := "/r/a.go"; fsnotify.Op := fsnotify.Write |} in
  let b := {| fsnotify.Name := "/r/b.go"; fsnotify.Op := fsnotify.Write |} in
  batchRun [case_event a; case_tick; case_event b; case_done; case_tick; case_event a; case_tick]
  = ([[a]], returned).
Proof. reflexivity. Qed.

(** ** Dispatch *)

Section DispatchFacts.

Context {W : Type}.
Variable emit : io -> W -> W.
Implicit Types p : Pipeline W.
Implicit Types log : list (nat * TaskInfo).

Lemma matching_lookup (wfs : list (Workflower W)) fpath op :
  forall from i,
    i ∈ matching from wfs fpath op <->
    exists k wf, i = from + k /\ wfs !! k = Some wf /\ Match wf fpath op = true.
Proof.
  induction wfs as [|wf0 rest IH]; intros from i; cbn [matching].
  - split; [intros H; inversion H|]. intros (k & wf & _ & Hk & _).
    discriminate Hk.
  - rewrite elem_of_app, IH. split.
    + intros [Hhere|(k & wf & -> & Hk & Hm)].
      * destruct (Match wf0 fpath op) eqn:Hm0; [|inversion Hhere].
        apply list_elem_of_singleton in Hhere as ->.
        exists 0, wf0. repeat split; [lia|assumption].
      * exists (S k), wf. repeat split; [lia|assumption|assumption].
    + intros (k & wf & -> & Hk & Hm). destruct k as [|k].
      * left. cbn in Hk. injection Hk as ->. rewrite Hm.
        rewrite Nat.add_0_r. now left.
      * right. exists k, wf. repeat split; [lia|assumption|assumption].
Qed.

(** Positions come out in registration order, each at most once. *)
Lemma matching_sorted (wfs : list (Workflower W)) fpath op :
  forall from, StronglySorted lt (matching from wfs fpath op).
Proof.
  induction wfs as [|wf0 rest IH]; intros from; cbn [matching].
  - constructor.
  - specialize (IH (S from)).
    destruct (Match wf0 fpath op); [|exact IH].
    cbn [app]. constructor; [exact IH|].
    apply Forall_forall. intros i Hi.
    apply matching_lookup in Hi as (k & wf & -> & _). lia.
Qed.

(** The loop over recording twins does to the world what the loop does
    and logs one call per matching workflow, in order. *)
Lemma queryWorkflow_range_recorded p fpath op (wfs : list (Workflower W)) :
  forall from w log,
    queryWorkflow_range (recorded p) fpath op (recording_all from wfs) (w, log) =
      (queryWorkflow_range p fpath op wfs w,
       log ++ map (fun i => (i, new_TaskInfo p fpath)) (matching from wfs fpath op)).
Proof.
  induction wfs as [|wf0 rest IH]; intros from w log.
  - cbn. now rewrite app_nil_r.
  - cbn [recording_all queryWorkflow_range matching recording Match Run].
    destruct (Match wf0 fpath op).
    + change (new_TaskInfo (recorded p) fpath) with (new_TaskInfo p fpath).
      destruct (Run wf0 (new_TaskInfo p fpath) w) as [[info' err] w'].
      rewrite IH. cbn [app map]. now rewrite <- app_assoc.
    + apply IH.
Qed.

Lemma queryWorkflow_recorded p fpath op w log :
  queryWorkflow (emit_recorded emit) (recorded p) fpath op (w, log) =
    (queryWorkflow emit p fpath op w,
     log ++ map (fun i => (i, new_TaskInfo p fpath))
                (matching 0 (Workflows p) fpath op)).
Proof.
  unfold queryWorkflow.
  change (Workflows (recorded p)) with (recording_all 0 (Workflows p)).
  change (Verbose (recorded p)) with (Verbose p).
  change (Wout (recorded p)) with (Wout p).
  destruct (Verbose p); cbn [emit_recorded];
    apply queryWorkflow_range_recorded.
Qed.

Lemma dispatch_recorded p evs :
  forall w log,
    dispatch (emit_recorded emit) (recorded p) evs (w, log) =
      (dispatch emit p evs w, log ++ flat_map (expected_runs p) evs).
Proof.
  unfold dispatch. induction evs as [|e evs IH]; intros w log.
  - cbn. now rewrite app_nil_r.
  - cbn [fold_left flat_map]. rewrite queryWorkflow_recorded, IH.
    unfold expected_runs at 2. now rewrite <- app_assoc.
Qed.

End DispatchFacts.

(** C8. Dispatching a batch runs, for every event in batch order, every
    registered workflow whose [Match] accepts the event's path and
    operation, exactly once and in registration order: the calls logged
    by the recording twins are [expected_runs] of each event in turn,
    while the world ends as it does without the recording.  Each call
    gets a [TaskInfo] built for it, with the event's path as source, the
    pipeline's sinks and verbosity, and an empty target and buffer.  The
    statement holds for arbitrary [Run]s, whatever errors they return:
    the loop never looks at them. *)
Theorem dispatch_runs_every_match {W : Type} (emit : io -> W -> W)
    (p : Pipeline W) (evs : list fsnotify.Event) (w : W) :
  dispatch (emit_recorded emit) (recorded p) evs (w, [])
    = (dispatch emit p evs w, flat_map (expected_runs p) evs) /\
  (forall e i,
      i ∈ matching 0 (Workflows p) (fsnotify.Name e) (fsnotify.Op e) <->
      exists wf, Workflows p !! i = Some wf /\
                 Match wf (fsnotify.Name e) (fsnotify.Op e) = true) /\
  (forall e,
      StronglySorted lt (matching 0 (Workflows p) (fsnotify.Name e) (fsnotify.Op e))) /\
  (forall e i info,
      (i, info) ∈ expected_runs p e ->
      Src info = fsnotify.Name e /\ Tout info = Wout p /\ Terr info = Werr p /\
      ti_Verbose info = Verbose p /\ Target info = "" /\ Buf info = "").
Proof.
  split; [apply (dispatch_recorded emit p evs w [])|]. split; [|split].
  - intros e i. rewrite matching_lookup. split.
    + intros (k & wf & -> & Hk & Hm). now exists wf.
    + intros (wf & Hk & Hm). now exists i, wf.
  - intros e. apply matching_sorted.
  - intros e i info Hin. unfold expected_runs in Hin.
    apply list_elem_of_fmap in Hin as (j & Heq & _).
    injection Heq as -> ->. cbn. auto 6.
Qed.

(** The fan-out example of the spec, with a first workflow that fails:
    for the batch of [/r/a.go] and [/r/b.go], [build_wf] runs once and
    [test_wf] twice, each on the path of its event. *)
Example dispatch_fan_out :
  let p := Add (NewPipeline "fan" false) [build_wf; test_wf] in
  let e1 := {| fsnotify.Name := "/r/a.go"; fsnotify.Op := fsnotify.Write |} in
  let e2 := {| fsnotify.Name := "/r/b.go"; fsnotify.Op := fsnotify.Write |} in
  dispatch (emit_recorded (fun _ w => w)) (recorded p) [e1; e2] ([], [])
  = (["build /r/a.go"; "test /r/a.go"; "test /r/b.go"],
     [(0, new_TaskInfo p "/r/a.go"); (1, new_TaskInfo p "/r/a.go");
      (1, new_TaskInfo p "/r/b.go")]).
Proof. reflexivity. Qed.

(** ** The go tasks *)

Lemma length_zero_empty (s : string) :
  Nat.eqb (String.length s) 0 = true <-> s = "".
Proof. destruct s; cbn; split; congruence. Qed.

Lemma append_empty_l (s : string) : "" +:+ s = s.
Proof. reflexivity. Qed.

Section TaskFacts.

Variable GoRelSrcDir : string -> string.
Variable strings_Title : string -> string.
Variable exec_Run : string -> list string -> Cmd_result.

(** What the child process leaves behind: its standard output in the
    buffer after whatever the buffer held, its standard error on
    [info.Terr]. *)
Lemma run_into_spec info name targs :
  run_into exec_Run info name targs =
    (set_Buf (Buf info +:+ cmd_Stdout (exec_Run name targs)) info,
     cmd_err (exec_Run name targs),
     if Nat.eqb (String.length (cmd_Stderr (exec_Run name targs))) 0 then []
     else [CmdStderr (Terr info) (cmd_Stderr (exec_Run name targs))]).
Proof. reflexivity. Qed.

End TaskFacts.

(** C9. [goPrjTask.Run] honours the task contract.  It leaves the
    target path equal to the source path; the scratch buffer is reset
    before the command runs, so what is flushed is the command's output
    and nothing older; the first thing written to the output sink is the
    running line; the error returned is the error of the command; on
    success [ok] is written; and on success and on failure alike the
    captured output is flushed to the output sink as the last step,
    leaving the buffer empty. *)
Theorem goPrjTask_Run_contract (GoRelSrcDir strings_Title : string -> string)
    (exec_Run : string -> list string -> Cmd_result)
    (gt : goPrjTask) (info : TaskInfo) :
  let dir := GoRelSrcDir (Src info) in
  let r := exec_Run "go" ((gocmd gt :: args gt) ++ [dir]) in
  let running := Fprintln (Tout info) ["Go"; strings_Title (gocmd gt); "..."; dir] in
  let stderr := if Nat.eqb (String.length (cmd_Stderr r)) 0 then []
                else [CmdStderr (Terr info) (cmd_Stderr r)] in
  let ok := match cmd_err r with
            | None => [Fprintln (Tout info) ["ok"]]
            | Some _ => []
            end in
  let flush := if Nat.eqb (String.length (cmd_Stdout r)) 0 then []
               else [BufWriteTo (Tout info) (cmd_Stdout r)] in
  let '(info', err, out) := goPrjTask_Run GoRelSrcDir strings_Title exec_Run gt info in
  Target info' = Src info /\ Src info' = Src info /\ Buf info' = "" /\
  Tout info' = Tout info /\ Terr info' = Terr info /\
  err = cmd_err r /\
  out = [running] ++ stderr ++ ok ++ flush.
Proof.
  unfold goPrjTask_Run. rewrite run_into_spec.
  cbn [app Src Buf Tout Terr set_Buf set_Target]. rewrite !append_empty_l.
  destruct (cmd_err _) as [e|]; cbn; repeat split; reflexivity.
Qed.

(** A failing build still flushes what the command printed. *)
Example goPrjTask_Run_failure :
  let exec := fun (_ : string) (_ : list string) =>
                {| cmd_Stdout := "partial output"; cmd_Stderr := "";
                   cmd_err := Some (errors_New "exit status 2") |} in
  let info := {| Src := "/go/src/proj/x.go"; Target := "/old"; Buf := "stale";
                 Tout := os_Stdout; Terr := os_Stderr; ti_Verbose := false |} in
  goPrjTask_Run (fun _ => "proj") (fun _ => "Build") exec (NewGoBuildTask ["-v"]) info
  = ({| Src := "/go/src/proj/x.go"; Target := "/go/src/proj/x.go"; Buf := "";
        Tout := os_Stdout; Terr := os_Stderr; ti_Verbose := false |},
     Some (errors_New "exit status 2"),
     [Fprintln os_Stdout ["Go"; "Build"; "..."; "proj"];
      BufWriteTo os_Stdout "partial output"]).
Proof. reflexivity. Qed.

(** C10. [goLintTask.Run] returns the command's error when the command
    fails, the error [FAIL] when the command succeeds and printed
    something, and no error when it succeeds in silence; so it returns
    an error exactly when the command failed or printed something, and
    it writes [ok] to the output sink exactly when the command succeeded
    and printed nothing. *)
Theorem goLintTask_Run_errors (GoRelSrcDir : string -> string)
    (exec_Run : string -> list string -> Cmd_result)
    (lt : goLintTask) (info : TaskInfo) :
  let dir := GoRelSrcDir (Src info) in
  let r := exec_Run "golint" (lint_args lt ++ [dir]) in
  let '(_, err, out) := goLintTask_Run GoRelSrcDir exec_Run lt info in
  err = match cmd_err r with
        | Some e => Some e
        | None => if Nat.eqb (String.length (cmd_Stdout r)) 0 then None
                  else Some (errors_New "FAIL")
        end /\
  (err <> None <-> cmd_err r <> None \/ cmd_Stdout r <> "") /\
  (Fprintln (Tout info) ["ok"] ∈ out <-> cmd_err r = None /\ cmd_Stdout r = "").
Proof.
  unfold goLintTask_Run. rewrite run_into_spec.
  cbn [app Src Buf Tout Terr set_Buf set_Target]. rewrite !append_empty_l.
  set (r := exec_Run "golint" _).
  assert (Hnotok : forall l : list io,
    Fprintln (Tout info) ["ok"] ∈
      Fprintln (Tout info)
        ["Go Lint"; fmt_strings (lint_args lt); "..."; GoRelSrcDir (Src info)]
      :: (if Nat.eqb (String.length (cmd_Stderr r)) 0 then []
          else [CmdStderr (Terr info) (cmd_Stderr r)]) ++ l ->
    Fprintln (Tout info) ["ok"] ∈ l).
  { intros l H. apply elem_of_cons in H as [H|H]; [discriminate H|].
    apply elem_of_app in H as [H|H]; [|exact H].
    destruct (Nat.eqb _ 0); [inversion H|].
    apply list_elem_of_singleton in H. discriminate H. }
  destruct (cmd_err r) as [e|] eqn:Herr.
  - cbn. split; [reflexivity|]. split.
    + split; [intros _; now left|discriminate].
    + split; [|intros [H _]; discriminate H].
      intros H. apply Hnotok in H. exfalso.
      destruct (Nat.eqb (String.length (cmd_Stdout r)) 0); [inversion H|].
      apply list_elem_of_singleton in H. discriminate H.
  - destruct (cmd_Stdout r) as [|c s] eqn:Hout; cbn.
    + split; [reflexivity|]. split.
      * split; [congruence|]. intros [H|H]; congruence.
      * split; [now split|]. intros _.
        right. apply elem_of_app. right. now left.
    + split; [reflexivity|]. split.
      * split; [intros _; now right|discriminate].
      * split; [|intros [_ H]; discriminate H].
        intros H. apply Hnotok in H.
        apply list_elem_of_singleton in H. discriminate H.
Qed.

(** A clean lint run and one with findings. *)
Example goLintTask_Run_findings :
  let exec := fun (_ : string) (_ : list string) =>
                {| cmd_Stdout := "x.go:1: missing comment"; cmd_Stderr := "";
                   cmd_err := None |} in
  let info := {| Src := "/go/src/proj/x.go"; Target := ""; Buf := "";
                 Tout := os_Stdout; Terr := os_Stderr; ti_Verbose := false |} in
  (goLintTask_Run (fun _ => "proj") exec (NewGoLintTask []) info).1.2
    = Some (errors_New "FAIL") /\
  (goLintTask_Run (fun _ => "proj") exec (NewGoLintTask []) info).2
    = [Fprintln os_Stdout ["Go Lint"; "[]"; "..."; "proj"];
       BufWriteTo os_Stdout "x.go:1: missing comment"].
Proof. split; reflexivity. Qed.

(** * Further properties *)

(** ** What every call keeps *)

Section CallFacts.

Context {W : Type}.
Implicit Types p q : Pipeline W.

Lemma extends_refl p : extends p p.
Proof. unfold extends. auto 10. Qed.

Lemma extends_trans p q r : extends p q -> extends q r -> extends p r.
Proof.
  intros (H1 & H2 & H3 & H4 & H5 & H6) (G1 & G2 & G3 & G4 & G5 & G6).
  unfold extends. repeat split; try congruence.
  - now transitivity (Watches q).
  - now transitivity (dom (recDirs q)).
  - now transitivity (Workflows q).
Qed.

Lemma Watch_extends AbsPath p watchDir :
  extends p (Watch AbsPath p watchDir).1.2.
Proof.
  destruct (Watch_frame AbsPath p watchDir) as (_ & H2 & H3 & H4 & H5 & H6).
  cbn zeta in *. unfold extends. rewrite H2, H3, H4, H5, H6, Watch_Watches.
  repeat split; try reflexivity.
  destruct (AbsPath watchDir) as [d [err|]]; [reflexivity|].
  case_bool_decide; [reflexivity|]. now apply prefix_app_r.
Qed.

Lemma Watch_well_formed AbsPath p watchDir :
  well_formed p -> well_formed (Watch AbsPath p watchDir).1.2.
Proof.
  intros [Hnd Hsub]. split; [now apply Watch_NoDup|].
  destruct (AbsPath watchDir) as [d [err|]] eqn:Hd.
  - now rewrite (Watch_failed _ _ _ _ _ Hd).
  - destruct (decide (d ∈ Watches p)) as [Hin|Hin].
    + now rewrite (Watch_present _ _ _ _ Hd Hin).
    + rewrite (Watch_fresh _ _ _ _ Hd Hin). unfold subscribed_to_watches in *.
      cbn. destruct (watcher p) as [w|]; cbn; [|exact I].
      unfold watcher_Add. now rewrite Hsub.
Qed.

Lemma Watch_all_extends AbsPath (s : Pipeline W * list io) l :
  extends s.1 (Watch_all AbsPath s l).1.
Proof.
  revert s. induction l as [|x l IH]; intros [p out]; [apply extends_refl|].
  rewrite Watch_all_cons. eapply extends_trans; [|apply IH].
  apply Watch_extends.
Qed.

Lemma Watch_all_well_formed AbsPath (s : Pipeline W * list io) l :
  well_formed s.1 -> well_formed (Watch_all AbsPath s l).1.
Proof.
  revert s. induction l as [|x l IH]; intros [p out] Hwf; [exact Hwf|].
  rewrite Watch_all_cons. apply IH. now apply Watch_well_formed.
Qed.

Lemma set_recDirs_insert_extends p d (b : bool) :
  extends p (set_recDirs (<[d := b]> (recDirs p)) p).
Proof.
  unfold extends. cbn. repeat split; try reflexivity.
  rewrite dom_insert. set_solver.
Qed.

Lemma WatchRecursive_extends AbsPath IsHidden fs p watchDir ignoreHidden :
  extends p (WatchRecursive AbsPath IsHidden fs p watchDir ignoreHidden).1.2.
Proof.
  destruct (AbsPath watchDir) as [d [err|]] eqn:Hd.
  - rewrite (WatchRecursive_failed _ _ _ _ _ _ _ _ Hd). apply extends_refl.
  - destruct (fs d) as [root|] eqn:Hroot.
    + rewrite (WatchRecursive_resolved _ _ _ _ _ _ _ _ Hd Hroot). cbn [fst snd].
      eapply extends_trans; [apply (set_recDirs_insert_extends p d ignoreHidden)|].
      apply (Watch_all_extends AbsPath (set_recDirs _ p, [])).
    + rewrite (WatchRecursive_no_root _ _ _ _ _ _ _ Hd Hroot).
      apply set_recDirs_insert_extends.
Qed.

Lemma WatchRecursive_well_formed AbsPath IsHidden fs p watchDir ignoreHidden :
  well_formed p ->
  well_formed (WatchRecursive AbsPath IsHidden fs p watchDir ignoreHidden).1.2.
Proof.
  intros Hwf.
  destruct (AbsPath watchDir) as [d [err|]] eqn:Hd.
  - now rewrite (WatchRecursive_failed _ _ _ _ _ _ _ _ Hd).
  - destruct (fs d) as [root|] eqn:Hroot.
    + rewrite (WatchRecursive_resolved _ _ _ _ _ _ _ _ Hd Hroot). cbn [fst snd].
      now apply (Watch_all_well_formed AbsPath (set_recDirs _ p, [])).
    + now rewrite (WatchRecursive_no_root _ _ _ _ _ _ _ Hd Hroot).
Qed.

(** [recDir] either leaves the pipeline alone or is one call of
    [WatchRecursive] on the event's path. *)
Lemma recDir_cases AbsPath IsHidden fs order p e :
  recDir AbsPath IsHidden fs order p e = (p, [], []) \/
  exists iHidden,
    recDir AbsPath IsHidden fs order p e =
      let r := WatchRecursive AbsPath IsHidden fs p (fsnotify.Name e) iHidden in
      (r.1.2, r.2, [(fsnotify.Name e, iHidden)]).
Proof.
  unfold recDir.
  destruct (negb (N.eqb _ _)); [now left|].
  destruct (negb (stat_is_dir _ _)); [now left|].
  generalize (IsHidden (fsnotify.Name e)). intros h.
  induction order as [|[dir0 ih] rest IH]; [now left|].
  cbn [recDir_range]. destruct (h && ih); [exact IH|].
  destruct (filepath.Rel dir0 (fsnotify.Name e)); [exact IH|].
  right. exists ih.
  now destruct (WatchRecursive _ _ _ _ _ _) as [[err p'] out].
Qed.


Lemma recDir_well_formed AbsPath IsHidden fs order p e :
  well_formed p -> well_formed (recDir AbsPath IsHidden fs order p e).1.1.
Proof.
  intros Hwf.
  destruct (recDir_cases AbsPath IsHidden fs order p e) as [->|[ih ->]].
  - exact Hwf.
  - now apply WatchRecursive_well_formed.
Qed.

Lemma Add_spec (ws : list (Workflower W)) :
  forall p,
    Workflows (Add p ws) = Workflows p ++ ws /\
    Name (Add p ws) = Name p /\ Watches (Add p ws) = Watches p /\
    Wout (Add p ws) = Wout p /\ Werr (Add p ws) = Werr p /\
    Verbose (Add p ws) = Verbose p /\ watcher (Add p ws) = watcher p /\
    recDirs (Add p ws) = recDirs p.
Proof.
  unfold Add. induction ws as [|w ws IH]; intros p.
  - cbn. rewrite app_nil_r. auto 10.
  - cbn [fold_left].
    destruct (IH (set_Workflows (Workflows p ++ [w]) p))
      as (H1 & H2 & H3 & H4 & H5 & H6 & H7 & H8).
    rewrite H1, H2, H3, H4, H5, H6, H7, H8. cbn.
    rewrite <- app_assoc. auto 10.
Qed.


Lemma Add_well_formed p ws : well_formed p -> well_formed (Add p ws).
Proof.
  destruct (Add_spec ws p) as (_ & _ & H3 & _ & _ & _ & H7 & _).
  unfold well_formed, subscribed_to_watches. now rewrite H3, H7.
Qed.

(** The subscription loop adds the targets in order and prints one line
    for each when verbose. *)
Lemma Start_subscribe_spec verbose wout targets :
  forall w,
    Start_subscribe verbose wout targets w =
      (w ++ targets,
       if verbose
       then map (fun d => Fprintf wout ("Watching " +:+ d +:+ newline)) targets
       else []).
Proof.
  induction targets as [|d rest IH]; intros w; cbn [Start_subscribe].
  - rewrite app_nil_r. now destruct verbose.
  - rewrite IH. unfold watcher_Add. rewrite <- app_assoc.
    now destruct verbose.
Qed.


Lemma Start_setup_well_formed nw p :
  well_formed p -> well_formed (Start_setup nw p).1.1.
Proof.
  intros [Hnd Hsub]. unfold Start_setup. rewrite Start_subscribe_spec.
  destruct (String.eqb (Name p) ""), nw; cbn; split; try assumption;
    reflexivity.
Qed.






Lemma run_call_well_formed IsHidden p c :
  well_formed p -> well_formed (run_call IsHidden p c).1.
Proof.
  intros Hwf. destruct c as [v d|v d ih|v order e|ws|nw]; cbn [run_call].
  - pose proof (Watch_well_formed (env_AbsPath v) p d Hwf) as H.
    now destruct (Watch _ p d) as [[r p'] out].
  - pose proof (WatchRecursive_well_formed (env_AbsPath v) IsHidden (env_fs v)
                  p d ih Hwf) as H.
    now destruct (WatchRecursive _ _ _ p d ih) as [[r p'] out].
  - pose proof (recDir_well_formed (env_AbsPath v) IsHidden (env_fs v)
                  order p e Hwf) as H.
    now destruct (recDir _ _ _ order p e) as [[p' out] calls].
  - now apply Add_well_formed.
  - pose proof (Start_setup_well_formed nw p Hwf) as H.
    now destruct (Start_setup nw p) as [[p' out] b].
Qed.

Lemma run_calls_snoc IsHidden p calls c :
  run_calls IsHidden p (calls ++ [c]) =
    let s := run_calls IsHidden p calls in
    let r := run_call IsHidden s.1 c in
    (r.1, s.2 ++ r.2).
Proof.
  unfold run_calls. rewrite fold_left_app. cbn [fold_left].
  destruct (fold_left _ calls (p, [])) as [q out]. cbn [fst snd].
  now destruct (run_call IsHidden q c) as [q' o].
Qed.


Lemma run_calls_well_formed IsHidden p calls :
  well_formed p -> well_formed (run_calls IsHidden p calls).1.
Proof.
  intros Hwf. induction calls as [|c calls IH] using rev_ind; [exact Hwf|].
  rewrite run_calls_snoc. cbn zeta. cbn [fst].
  now apply run_call_well_formed.
Qed.

End CallFacts.

(** X1. However a pipeline made by [NewPipeline] is driven through
    [Watch], [WatchRecursive], [recDir], [Add] and [Start], with whatever
    resolver and file system each call meets, its watch list never holds
    a directory twice. *)
Theorem watch_list_never_repeats {W : Type} (IsHidden : string -> bool)
    (name : string) (verbose : bool) (calls : list (call W)) :
  NoDup (Watches (run_calls IsHidden (NewPipeline name verbose) calls).1).
Proof.
  apply (run_calls_well_formed IsHidden (NewPipeline name verbose) calls).
  split; [apply NoDup_nil_2|exact I].
Qed.




(** X5. [WatchRecursive] reports only a resolution failure, and then
    it changes and prints nothing, verbose or not.  Once the path
    resolves it returns no error whatever the walk meets, and the root
    is recorded with its policy even when nothing can be walked: the
    watch list is at most appended to, and it is left as it was when the
    root cannot be found on disk or is not a directory. *)
Theorem WatchRecursive_swallows_walk_errors {W : Type}
    (AbsPath : string -> string * option error) (IsHidden : string -> bool)
    (fs : string -> option os.node) (p : Pipeline W)
    (watchDir : string) (ignoreHidden : bool) :
  let '(err, p', out) := WatchRecursive AbsPath IsHidden fs p watchDir ignoreHidden in
  match AbsPath watchDir with
  | (_, Some e) => err = Some e /\ p' = p /\ out = []
  | (d, None) =>
      err = None /\
      recDirs p' = <[d := ignoreHidden]> (recDirs p) /\
      Watches p `prefix_of` Watches p' /\
      match fs d with
      | Some (os.Dir _ _) => True
      | _ => Watches p' = Watches p
      end
  end.
Proof.
  pose proof (WatchRecursive_extends AbsPath IsHidden fs p watchDir ignoreHidden)
    as (Hpre & _).
  destruct (AbsPath watchDir) as [d [e|]] eqn:Hd.
  - now rewrite (WatchRecursive_failed _ _ _ _ _ _ _ _ Hd).
  - destruct (fs d) as [root|] eqn:Hroot.
    + rewrite (WatchRecursive_resolved _ _ _ _ _ _ _ _ Hd Hroot) in *.
      cbn zeta in *. cbn [fst snd] in *.
      split; [reflexivity|]. split.
      { now destruct (Watch_all_frame AbsPath
                        (set_recDirs (<[d:=ignoreHidden]> (recDirs p)) p, [])
                        (survivors IsHidden ignoreHidden d (filepath.Base d) root))
          as (_ & _ & _ & _ & _ & ->). }
      split; [exact Hpre|]. now destruct root.
    + rewrite (WatchRecursive_no_root _ _ _ _ _ _ _ Hd Hroot). cbn.
      repeat split; reflexivity.
Qed.

(** X6. [WatchRecursive] with [ignoreHidden = false], on a path
    resolving to [d] where [Lstat] finds [root] and with a resolver that
    maps every walked directory to itself: the watch list afterwards
    holds what it held before and exactly the directories reached from
    the root through readable directories, hidden or not. *)
Theorem WatchRecursive_include_hidden {W : Type}
    (AbsPath : string -> string * option error) (IsHidden : string -> bool)
    (fs : string -> option os.node) (p : Pipeline W)
    (watchDir d : string) (root : os.node) :
  AbsPath watchDir = (d, None) ->
  fs d = Some root ->
  (forall q, q ∈ survivors IsHidden false d (filepath.Base d) root ->
             AbsPath q = (q, None)) ->
  let '(err, p', _) := WatchRecursive AbsPath IsHidden fs p watchDir IncludeHidden in
  err = None /\
  recDirs p' = <[d := false]> (recDirs p) /\
  forall q, q ∈ Watches p' <->
            q ∈ Watches p \/
            exists chain, subdir d (filepath.Base d) root q chain /\
                          Forall (fun x => x.2 = true) chain.
Proof.
  intros Hd Hroot Hres. unfold IncludeHidden.
  rewrite (WatchRecursive_resolved AbsPath IsHidden fs p watchDir false d root Hd Hroot).
  cbn zeta. set (s0 := (set_recDirs (<[d:=false]> (recDirs p)) p, [])).
  split; [reflexivity|]. split.
  { now destruct (Watch_all_frame AbsPath s0
                    (survivors IsHidden false d (filepath.Base d) root))
      as (_ & _ & _ & _ & _ & ->). }
  intros q. rewrite (Watch_all_Watches AbsPath s0 _ q Hres), survivors_iff.
  cbn [fst]. split; (intros [H|(chain & Hsub & Hvis)]; [now left|right]);
    exists chain; (split; [exact Hsub|]); eapply Forall_impl; try exact Hvis.
  - intros x [Hx _]. exact Hx.
  - intros x Hx. split; [exact Hx|apply andb_false_r].
Qed.

Lemma WatchRecursive_include_hidden_witness :
  let '(err, p', _) :=
    WatchRecursive (example_AbsPath example_fs) dot_hidden example_fs
      example_pipeline "/r/.git" IncludeHidden in
  err = None /\
  recDirs p' = <["/r/.git" := false]> (recDirs example_pipeline) /\
  forall q, q ∈ Watches p' <->
            q ∈ Watches example_pipeline \/
            exists chain,
              subdir "/r/.git" (filepath.Base "/r/.git")
                (default os.File (example_fs "/r/.git")) q chain /\
              Forall (fun x => x.2 = true) chain.
Proof.
  apply (WatchRecursive_include_hidden (example_AbsPath example_fs) dot_hidden
           example_fs example_pipeline "/r/.git" "/r/.git"
           (default os.File (example_fs "/r/.git")) eq_refl eq_refl).
  intros q Hq. vm_compute in Hq.
  repeat (apply elem_of_cons in Hq as [->|Hq]; [reflexivity|]).
  inversion Hq.
Defined.

(** ** More on recDir *)

Lemma dirOps_subset (op : N) :
  N.land dirOps op = op <->
  op = 0%N \/ op = fsnotify.Create \/ op = fsnotify.Rename \/ op = dirOps.
Proof.
  split.
  - intros H. destruct op as [|q]; [auto|].
    do 4 (try destruct q as [q|q|]); cbn in H; try discriminate H; auto.
  - intros [-> | [-> | [-> | ->]]]; reflexivity.
Qed.



(** X8. [recDir] does nothing for an event whose operation has a bit
    outside create and rename (a write, a remove, a chmod, or a create
    combined with one of them), and nothing for a path that is not a
    directory on disk: the pipeline is left alone, nothing is printed
    and [WatchRecursive] is not called. *)
Theorem recDir_ignores_other_events {W : Type}
    (AbsPath : string -> string * option error) (IsHidden : string -> bool)
    (fs : string -> option os.node) (order : list (string * bool))
    (p : Pipeline W) (e : fsnotify.Event) :
  (fsnotify.Op e <> 0%N /\ fsnotify.Op e <> fsnotify.Create /\
   fsnotify.Op e <> fsnotify.Rename /\ fsnotify.Op e <> dirOps) \/
  stat_is_dir fs (fsnotify.Name e) = false ->
  recDir AbsPath IsHidden fs order p e = (p, [], []).
Proof.
  intros [Hop|Hdir]; unfold recDir.
  - destruct (N.eqb_spec (N.land dirOps (fsnotify.Op e)) (fsnotify.Op e)) as [H|H];
      [|reflexivity].
    apply dirOps_subset in H. tauto.
  - rewrite Hdir. now destruct (negb (N.eqb _ _)).
Qed.

Lemma recDir_ignores_other_events_witness :
  recDir (example_AbsPath example_fs) dot_hidden example_fs [("/a", false)]
    (set_recDirs {["/a" := false]} example_pipeline)
    {| fsnotify.Name := "/a/sub/new";
       fsnotify.Op := N.lor fsnotify.Create fsnotify.Write |}
  = (set_recDirs {["/a" := false]} example_pipeline, [], []).
Proof.
  apply (recDir_ignores_other_events (example_AbsPath example_fs) dot_hidden
           example_fs [("/a", false)]
           (set_recDirs {["/a" := false]} example_pipeline)
           {| fsnotify.Name := "/a/sub/new";
              fsnotify.Op := N.lor fsnotify.Create fsnotify.Write |}).
  left. repeat split; discriminate.
Defined.

(** X9. A new directory whose path is hidden is never rescanned when
    every recursive root ignores hidden directories. *)
Theorem recDir_hidden_under_ignoring_roots {W : Type}
    (AbsPath : string -> string * option error) (IsHidden : string -> bool)
    (fs : string -> option os.node) (order : list (string * bool))
    (p : Pipeline W) (e : fsnotify.Event) :
  IsHidden (fsnotify.Name e) = true ->
  (forall root iHidden, (root, iHidden) ∈ order -> iHidden = true) ->
  recDir AbsPath IsHidden fs order p e = (p, [], []).
Proof.
  intros Hh Hall. unfold recDir.
  destruct (negb (N.eqb _ _)); [reflexivity|].
  destruct (negb (stat_is_dir _ _)); [reflexivity|].
  rewrite Hh. induction order as [|[root ih] rest IH]; [reflexivity|].
  cbn [recDir_range]. rewrite (Hall root ih) by left. cbn [andb].
  apply IH. intros r i Hin. apply (Hall r i). now right.
Qed.

Lemma recDir_hidden_under_ignoring_roots_witness :
  recDir (example_AbsPath example_fs) base_hidden example_fs [("/r", true)]
    (set_recDirs {["/r" := true]} (set_Watches ["/r"] example_pipeline))
    {| fsnotify.Name := "/r/.git"; fsnotify.Op := fsnotify.Create |}
  = (set_recDirs {["/r" := true]} (set_Watches ["/r"] example_pipeline), [], []).
Proof.
  apply (recDir_hidden_under_ignoring_roots (example_AbsPath example_fs)
           base_hidden example_fs [("/r", true)]
           (set_recDirs {["/r" := true]} (set_Watches ["/r"] example_pipeline))
           {| fsnotify.Name := "/r/.git"; fsnotify.Op := fsnotify.Create |}
           eq_refl).
  intros root ih Hin. apply list_elem_of_singleton in Hin. now injection Hin.
Defined.

(** X10. Between rooted paths the test of [recDir] does not look at
    containment: when some recursive root with a rooted path does not
    exclude the event's rooted path on hidden grounds, a create or
    rename of a directory is rescanned wherever that directory lies. *)
Theorem recDir_rescans_any_rooted_directory {W : Type}
    (AbsPath : string -> string * option error) (IsHidden : string -> bool)
    (fs : string -> option os.node) (order : list (string * bool))
    (p : Pipeline W) (e : fsnotify.Event) (root : string) (iHidden : bool) :
  order ≡ₚ map_to_list (recDirs p) ->
  recDirs p !! root = Some iHidden ->
  filepath.rooted root = true ->
  filepath.rooted (fsnotify.Name e) = true ->
  (IsHidden (fsnotify.Name e) && iHidden) = false ->
  N.land dirOps (fsnotify.Op e) = fsnotify.Op e ->
  stat_is_dir fs (fsnotify.Name e) = true ->
  exists policy,
    (recDir AbsPath IsHidden fs order p e).2 = [(fsnotify.Name e, policy)].
Proof.
  intros Hperm Hlook Hroot Hname Hh Hop Hdir.
  assert (Hcalls : (recDir AbsPath IsHidden fs order p e).2 <> []).
  { apply (recDir_rescans_iff AbsPath IsHidden fs order p e Hperm Hop Hdir).
    exists root, iHidden. repeat split; try assumption.
    now apply Rel_rooted. }
  destruct (recDir_cases AbsPath IsHidden fs order p e) as [Hnone|[ih Hsome]].
  - rewrite Hnone in Hcalls. now contradiction Hcalls.
  - exists ih. now rewrite Hsome.
Qed.

Lemma recDir_rescans_any_rooted_directory_witness :
  exists policy,
    (recDir (example_AbsPath example_fs) dot_hidden example_fs
       (map_to_list (recDirs (set_recDirs {["/go/src/proj" := true]}
                                (example_pipeline))))
       (set_recDirs {["/go/src/proj" := true]} example_pipeline)
       {| fsnotify.Name := "/r/src"; fsnotify.Op := fsnotify.Create |}).2
    = [("/r/src", policy)].
Proof.
  exact (recDir_rescans_any_rooted_directory (example_AbsPath example_fs)
           dot_hidden example_fs
           (map_to_list (recDirs (set_recDirs {["/go/src/proj" := true]}
                                    example_pipeline)))
           (set_recDirs {["/go/src/proj" := true]} example_pipeline)
           {| fsnotify.Name := "/r/src"; fsnotify.Op := fsnotify.Create |}
           "/go/src/proj" true
           (reflexivity _) eq_refl eq_refl eq_refl eq_refl eq_refl eq_refl).
Defined.

(** ** More on the batcher and the dispatch loop *)

Lemma batchRun_loop_account cases :
  forall evs,
    let '(sent, final) := batchRun_loop evs cases in
    Forall (fun b => b <> []) sent /\
    concat sent `prefix_of` evs ++ arrivals cases /\
    match final with
    | in_loop held => concat sent ++ held = evs ++ arrivals cases /\
                      case_done ∉ cases
    | returned => case_done ∈ cases
    end.
Proof.
  induction cases as [|c cases IH]; intros evs.
  - cbn. rewrite app_nil_r. repeat split; [constructor|apply prefix_nil|].
    intros H. inversion H.
  - destruct c as [event| |].
    + rewrite batchRun_loop_event. specialize (IH (evs ++ [event])).
      destruct (batchRun_loop (evs ++ [event]) cases) as [sent final].
      destruct IH as (Hne & Hpre & Hfin).
      cbn [arrivals flat_map] in *. rewrite <- app_assoc in Hpre.
      repeat split; [exact Hne|exact Hpre|].
      destruct final as [held|].
      * destruct Hfin as [Heq Hno]. rewrite <- app_assoc in Heq.
        split; [exact Heq|]. intros H.
        apply elem_of_cons in H as [H|H]; [discriminate H|contradiction].
      * now right.
    + destruct evs as [|ev evs].
      * rewrite batchRun_loop_tick_empty. specialize (IH []).
        destruct (batchRun_loop [] cases) as [sent final].
        destruct IH as (Hne & Hpre & Hfin). cbn [arrivals flat_map app] in *.
        repeat split; [exact Hne|exact Hpre|].
        destruct final as [held|].
        -- destruct Hfin as [Heq Hno]. split; [exact Heq|]. intros H.
           apply elem_of_cons in H as [H|H]; [discriminate H|contradiction].
        -- now right.
      * rewrite batchRun_loop_tick_send. specialize (IH []).
        destruct (batchRun_loop [] cases) as [sent final].
        destruct IH as (Hne & Hpre & Hfin). cbn [fst snd].
        change (arrivals (case_tick :: cases)) with (arrivals cases).
        change (concat ((ev :: evs) :: sent)) with ((ev :: evs) ++ concat sent).
        rewrite app_nil_l in Hpre.
        repeat split.
        -- constructor; [discriminate|exact Hne].
        -- now apply prefix_app.
        -- destruct final as [held|].
           ++ destruct Hfin as [Heq Hno]. rewrite app_nil_l in Heq. split.
              ** now rewrite <- app_assoc, Heq.
              ** intros H.
                 apply elem_of_cons in H as [H|H]; [discriminate H|contradiction].
           ++ now right.
    + cbn. repeat split; [constructor|apply prefix_nil|now left].
Qed.

(** X11. In every run of the batcher, however raw events, ticks and
    the stop signal interleave: no empty batch is sent; the batches,
    laid end to end, are a leading part of the raw events in arrival
    order, so nothing is sent twice, reordered or invented; while the
    batcher has not been stopped the batches followed by the events it
    still holds are all the raw events; and it has returned exactly when
    a stop signal was among the cases. *)
Theorem batchRun_accounts_for_events (cases : list selected) :
  let '(sent, final) := batchRun cases in
  Forall (fun b => b <> []) sent /\
  concat sent `prefix_of` arrivals cases /\
  match final with
  | in_loop held => concat sent ++ held = arrivals cases /\ case_done ∉ cases
  | returned => case_done ∈ cases
  end.
Proof. exact (batchRun_loop_account cases []). Qed.

Lemma Start_loop_concat {W : Type} (emit : io -> W -> W) (p : Pipeline W)
    (received : list (list fsnotify.Event)) :
  forall w, Start_loop emit p received w = dispatch emit p (concat received) w.
Proof.
  unfold Start_loop, dispatch.
  induction received as [|evs received IH]; intros w; [reflexivity|].
  cbn [fold_left concat]. now rewrite fold_left_app, IH.
Qed.

(** X12. The batcher and the dispatch loop together.  The dispatch
    loop of [Start], fed the batches a run of the batcher sends, does to
    the world what one pass of [queryWorkflow] over those events in
    arrival order does; the [Run] calls it makes are those asked for
    each of these events in turn; and the events it handles are a
    leading part of the raw events in arrival order. *)
Theorem Start_loop_follows_arrival_order {W : Type} (emit : io -> W -> W)
    (p : Pipeline W) (cases : list selected) (w : W) :
  let sent := (batchRun cases).1 in
  Start_loop emit p sent w = dispatch emit p (concat sent) w /\
  Start_loop (emit_recorded emit) (recorded p) sent (w, [])
    = (Start_loop emit p sent w, flat_map (expected_runs p) (concat sent)) /\
  concat sent `prefix_of` arrivals cases.
Proof.
  cbn zeta. split; [apply Start_loop_concat|]. split.
  - rewrite !Start_loop_concat. apply (dispatch_recorded emit p _ w []).
  - pose proof (batchRun_loop_account cases []) as H. unfold batchRun.
    destruct (batchRun_loop [] cases) as [sent final].
    now destruct H as (_ & H & _).
Qed.

(** X13. An event that no registered workflow matches runs nothing:
    [queryWorkflow] leaves the world alone, but for the event line a
    verbose pipeline prints first. *)
Theorem queryWorkflow_without_match {W : Type} (emit : io -> W -> W)
    (p : Pipeline W) (fpath : string) (op : N) (w : W) :
  (forall wf, wf ∈ Workflows p -> Match wf fpath op = false) ->
  queryWorkflow emit p fpath op w =
    if Verbose p
    then emit (Fprintf (Wout p)
                 ("Watcher event " +:+ fpath +:+ " " +:+ pretty op +:+ newline)) w
    else w.
Proof.
  intros Hno. unfold queryWorkflow.
  generalize (if Verbose p
              then emit (Fprintf (Wout p)
                           ("Watcher event " +:+ fpath +:+ " " +:+ pretty op +:+ newline)) w
              else w).
  induction (Workflows p) as [|wf rest IH]; intros w0; [reflexivity|].
  cbn [queryWorkflow_range]. rewrite (Hno wf) by left.
  apply IH. intros wf' Hin. apply Hno. now right.
Qed.

Lemma queryWorkflow_without_match_witness :
  queryWorkflow (fun _ w => w) (Add (NewPipeline "q" false) [build_wf])
    "/r/b.go" fsnotify.Write ["earlier"]
  = ["earlier"].
Proof.
  apply (queryWorkflow_without_match (fun _ w => w)
           (Add (NewPipeline "q" false) [build_wf]) "/r/b.go" fsnotify.Write
           ["earlier"]).
  intros wf Hin. apply list_elem_of_singleton in Hin. now subst wf.
Defined.

(** X14. [Add] appends the given workflows, in order, behind those
    already registered and changes nothing else; adding in two calls is
    adding the two lists at once. *)
Theorem Add_appends {W : Type} (p : Pipeline W) (ws ws' : list (Workflower W)) :
  Workflows (Add p ws) = Workflows p ++ ws /\
  Name (Add p ws) = Name p /\ Watches (Add p ws) = Watches p /\
  Wout (Add p ws) = Wout p /\ Werr (Add p ws) = Werr p /\
  Verbose (Add p ws) = Verbose p /\ watcher (Add p ws) = watcher p /\
  recDirs (Add p ws) = recDirs p /\
  Add (Add p ws) ws' = Add p (ws ++ ws').
Proof.
  destruct (Add_spec ws p) as (H1 & H2 & H3 & H4 & H5 & H6 & H7 & H8).
  repeat split; try assumption.
  unfold Add. now rewrite fold_left_app.
Qed.

(** ** More on the go tasks *)

(** X15. [goLintTask.Run] keeps the task contract on all three ways
    out: the target path is the source path, the running line comes
    first, what the command wrote to its standard error follows, [ok] is
    written only after a silent success, and last the captured output,
    when there is any, is flushed to the output sink and the buffer is
    left empty.  Only the command's own output is flushed, whatever the
    buffer held before. *)
Theorem goLintTask_Run_contract (GoRelSrcDir : string -> string)
    (exec_Run : string -> list string -> Cmd_result)
    (lt : goLintTask) (info : TaskInfo) :
  let dir := GoRelSrcDir (Src info) in
  let r := exec_Run "golint" (lint_args lt ++ [dir]) in
  let running :=
    Fprintln (Tout info) ["Go Lint"; fmt_strings (lint_args lt); "..."; dir] in
  let stderr := if Nat.eqb (String.length (cmd_Stderr r)) 0 then []
                else [CmdStderr (Terr info) (cmd_Stderr r)] in
  let ok := match cmd_err r, cmd_Stdout r with
            | None, EmptyString => [Fprintln (Tout info) ["ok"]]
            | _, _ => []
            end in
  let flush := match cmd_Stdout r with
               | EmptyString => []
               | _ => [BufWriteTo (Tout info) (cmd_Stdout r)]
               end in
  let '(info', _, out) := goLintTask_Run GoRelSrcDir exec_Run lt info in
  Target info' = Src info /\ Src info' = Src info /\ Buf info' = "" /\
  Tout info' = Tout info /\ Terr info' = Terr info /\
  out = [running] ++ stderr ++ ok ++ flush.
Proof.
  unfold goLintTask_Run. rewrite run_into_spec.
  cbn [app Src Buf Tout Terr set_Buf set_Target]. rewrite !append_empty_l.
  destruct (cmd_err _) as [e|]; destruct (cmd_Stdout _) as [|c s];
    cbn; repeat split; reflexivity.
Qed.

(** X16. Both tasks start from the source path alone: what a run
    returns, leaves in the context and writes does not depend on the
    target path or on the buffer content the context came with. *)
Theorem task_Run_ignores_stale_context (GoRelSrcDir strings_Title : string -> string)
    (exec_Run : string -> list string -> Cmd_result)
    (gt : goPrjTask) (lt : goLintTask) (info : TaskInfo)
    (target buf : string) :
  goPrjTask_Run GoRelSrcDir strings_Title exec_Run gt
    (set_Buf buf (set_Target target info))
  = goPrjTask_Run GoRelSrcDir strings_Title exec_Run gt info /\
  goLintTask_Run GoRelSrcDir exec_Run lt (set_Buf buf (set_Target target info))
  = goLintTask_Run GoRelSrcDir exec_Run lt info.
Proof. split; reflexivity. Qed.

(** ** The exact watch list after a recursive walk *)


Section WatchAllExact.

Context {W : Type}.
Variable AbsPath : string -> string * option error.
Implicit Types p : Pipeline W.


End WatchAllExact.



(** The walk of [/r] from a pipeline that already watches [/r/src]. *)
Example WatchRecursive_walk_order :
  Watches (WatchRecursive (example_AbsPath example_fs) dot_hidden example_fs
             (set_Watches ["/r/src"] example_pipeline) "/r" true).1.2
  = ["/r/src"; "/r"; "/r/src/pkg"].
Proof. reflexivity. Qed.
